(** * PERT / CPM scheduling engine of [pert.py]

    A shallow embedding of the class [PERTDiagram] (registry of tasks,
    validation, forward pass, backward pass, critical path extraction) and
    the proofs of its specification.

    Numbers.  Durations and times are Python numbers; the development takes
    the integers ([Z], Python's unbounded [int]).  The form of [app.py]
    passes [float(duration_str)]: on floats comparisons, [max] and [min] are
    exact, and sums and differences round.  What needs a sum and a
    difference to cancel exactly (no negative slack, the critical chains)
    holds for whole-number durations and is marked so; the numbered
    theorems do not state it.

    Dictionaries.  [self.tasks] is a Python [dict]: it iterates in insertion
    order and assigning to a key that is present keeps the key's position.
    It is an association list here, because [validate_tasks] reports the
    first offending pair and [identify_critical_path] seeds its queue in
    that order.

    networkx.  The graph is a [networkx.DiGraph]; the library is not part of
    the repository, so its operations are modelled from their documented
    behaviour ([add_node], [add_edge], [successors], [subgraph],
    [in_degree], [topological_sort], [find_cycle]). *)

From Stdlib Require Import List ZArith String Bool Lia Arith Permutation.
Import ListNotations.

Open Scope string_scope.
Open Scope list_scope.
Open Scope Z_scope.

(** ** Insertion-ordered dictionaries with string keys *)

Module Dict.
Section WithValue.
Context {V : Type}.

Definition t := list (string * V).

Definition empty : t := [].

(** [d[k]] / [d.get(k)] *)
Fixpoint get (k : string) (d : t) : option V :=
  match d with
  | [] => None
  | (k', v) :: r => if String.eqb k k' then Some v else get k r
  end.

(** [k in d] *)
Definition mem (k : string) (d : t) : bool :=
  match get k d with Some _ => true | None => false end.

(** [d[k] = v]: replaces in place when [k] is present, appends otherwise *)
Fixpoint set (k : string) (v : V) (d : t) : t :=
  match d with
  | [] => [(k, v)]
  | (k', v') :: r =>
      if String.eqb k k' then (k, v) :: r else (k', v') :: set k v r
  end.

(** [d[k][field] = ...] through the alias [info = d[k]]: the entry is
    changed where it stands; nothing happens when [k] is absent. *)
Fixpoint modify (k : string) (f : V -> V) (d : t) : t :=
  match d with
  | [] => []
  | (k', v') :: r =>
      if String.eqb k k' then (k', f v') :: r else (k', v') :: modify k f r
  end.

Definition keys (d : t) : list string := map fst d.
Definition values (d : t) : list V := map snd d.
End WithValue.
Arguments t : clear implicits.
End Dict.

(** ** The registry *)

(** The dictionary literal built by [add_task]. *)
Record task_info : Type := mk_task {
duration : Z;
dependencies : list string;
est : Z;   (* earliest start *)
eft : Z;   (* earliest finish *)
lst : Z;   (* latest start *)
lft : Z;   (* latest finish *)
float : Z  (* float / slack *)
}.

Definition set_est (x : Z) (i : task_info) : task_info :=
mk_task (duration i) (dependencies i) x (eft i) (lst i) (lft i) (float i).
Definition set_eft (x : Z) (i : task_info) : task_info :=
mk_task (duration i) (dependencies i) (est i) x (lst i) (lft i) (float i).
Definition set_lst (x : Z) (i : task_info) : task_info :=
mk_task (duration i) (dependencies i) (est i) (eft i) x (lft i) (float i).
Definition set_lft (x : Z) (i : task_info) : task_info :=
mk_task (duration i) (dependencies i) (est i) (eft i) (lst i) x (float i).
Definition set_float (x : Z) (i : task_info) : task_info :=
mk_task (duration i) (dependencies i) (est i) (eft i) (lst i) (lft i) x.

(** ** networkx.DiGraph

  [G._succ]: node -> successors, both in insertion order.  Node
  attributes are never read by the engine and are left out. *)

Module DiGraph.
Definition t := Dict.t (list string).

Definition empty : t := [].

Definition nodes (g : t) : list string := Dict.keys g.

Definition has_node (g : t) (n : string) : bool := Dict.mem n g.

(** [G.successors(n)] (= [G.neighbors(n)]) *)
Definition successors (g : t) (n : string) : list string :=
  match Dict.get n g with Some l => l | None => [] end.

Definition has_edge (g : t) (u v : string) : bool :=
  existsb (String.eqb v) (successors g u).

(** [G.predecessors(n)] as a set, listed in node order *)
Definition predecessors (g : t) (n : string) : list string :=
  filter (fun u => has_edge g u n) (nodes g).

(** [G.add_node(n)] *)
Definition add_node (g : t) (n : string) : t :=
  if has_node g n then g else g ++ [(n, [])].

(** [G.add_edge(u, v)]: both ends become nodes, [u] first *)
Definition add_edge (g : t) (u v : string) : t :=
  let g := add_node (add_node g u) v in
  if has_edge g u v then g else Dict.modify u (fun l => l ++ [v]) g.

(** [G.subgraph(nbunch)]: the nodes of [G] that are in [nbunch] and the
    edges of [G] between them, in [G]'s order *)
Definition subgraph (g : t) (nbunch : list string) : t :=
  let keep := fun n => existsb (String.eqb n) nbunch in
  map (fun '(n, l) => (n, filter keep l)) (filter (fun '(n, _) => keep n) g).

(** [G.in_degree(n)] for a node [n] *)
Definition in_degree (g : t) (n : string) : nat :=
  List.length (predecessors g n).
End DiGraph.

(** ** The object *)

Record PERTDiagram : Type := mk_diagram {
  tasks : Dict.t task_info;
  graph : DiGraph.t;
  critical_path : list string;
  project_duration : Z
}.

(** [__init__]: the object [PERTDiagram()] *)
Definition __init__ : PERTDiagram := mk_diagram Dict.empty DiGraph.empty [] 0.

Definition with_tasks (t : Dict.t task_info) (d : PERTDiagram) : PERTDiagram :=
  mk_diagram t (graph d) (critical_path d) (project_duration d).
Definition with_graph (g : DiGraph.t) (d : PERTDiagram) : PERTDiagram :=
  mk_diagram (tasks d) g (critical_path d) (project_duration d).
Definition with_critical_path (p : list string) (d : PERTDiagram) : PERTDiagram :=
  mk_diagram (tasks d) (graph d) p (project_duration d).
Definition with_project_duration (x : Z) (d : PERTDiagram) : PERTDiagram :=
  mk_diagram (tasks d) (graph d) (critical_path d) x.

(** ** Methods as state transformers that may raise

    A method runs on the object and either returns or raises; what it has
    written to the object before raising stays written, as in Python. *)

Inductive outcome (A : Type) : Type :=
| Returns (a : A) (s : PERTDiagram)
| Raises (e : string) (s : PERTDiagram).
Arguments Returns {A} a s.
Arguments Raises {A} e s.

Definition M (A : Type) : Type := PERTDiagram -> outcome A.

Definition ret {A} (a : A) : M A := fun s => Returns a s.

Definition raise {A} (e : string) : M A := fun s => Raises e s.

Definition bind {A B} (m : M A) (k : A -> M B) : M B :=
  fun s => match m s with
           | Returns a s' => k a s'
           | Raises e s' => Raises e s'
           end.

Notation "x <- m ;; k" := (bind m (fun x => k))
  (at level 61, m at next level, right associativity).
Notation "m ;; k" := (bind m (fun _ => k))
  (at level 61, right associativity).

(** [for x in l: body(x)] *)
Fixpoint for_each {X} (l : list X) (body : X -> M unit) : M unit :=
  match l with
  | [] => ret tt
  | x :: r => body x ;; for_each r body
  end.

(** a loop that carries a local variable: [acc = a; for x in l: acc = body(acc, x)] *)
Fixpoint fold_m {X A} (body : A -> X -> M A) (l : list X) (a : A) : M A :=
  match l with
  | [] => ret a
  | x :: r => a' <- body a x ;; fold_m body r a'
  end.

(** the state of the object after a method, however it ended *)
Definition state_of {A} (o : outcome A) : PERTDiagram :=
  match o with Returns _ s => s | Raises _ s => s end.

(** [str(KeyError(k))] *)
Definition key_error (k : string) : string := ("'" ++ k ++ "'")%string.

(** [self.tasks[k]] *)
Definition tasks_get (k : string) : M task_info :=
  fun s => match Dict.get k (tasks s) with
           | Some i => Returns i s
           | None => Raises (key_error k) s
           end.

(** a store through [task_info = self.tasks[k]] *)
Definition tasks_modify (k : string) (f : task_info -> task_info) : M unit :=
  fun s => Returns tt (with_tasks (Dict.modify k f (tasks s)) s).

(** [add_task(task_id, duration, dependencies)]; [dependencies=None] is
    [None] here and stands for the empty list.  The method has no failing
    path: it stores the dictionary literal under [task_id]. *)
Definition add_task (task_id : string) (dur : Z)
    (deps : option (list string)) : M unit :=
  fun s =>
    let deps := match deps with None => [] | Some l => l end in
    Returns tt (with_tasks (Dict.set task_id (mk_task dur deps 0 0 0 0 0) (tasks s)) s).

(** ** networkx algorithms *)

Definition mem_list (x : string) (l : list string) : bool :=
  existsb (String.eqb x) l.

(** a node whose predecessors have all been yielded *)
Definition ready (g : DiGraph.t) (done : list string) (v : string) : bool :=
  forallb (fun u => mem_list u done) (DiGraph.predecessors g v).

(** [nx.topological_generations]: Kahn's algorithm by generations.  Each
    round yields the nodes whose in-degree has dropped to zero; the loop
    stops when a round is empty.  [done] are the nodes yielded so far and
    [remaining] the others.  The result is the sequence yielded and whether
    the generator ended normally: networkx raises [NetworkXUnfeasible] at
    the end when nodes are left.  Every round but the last takes a node
    out of [remaining], so [length remaining] rounds are enough.

    A round is listed here in the order of [G.nodes]; networkx lists it in
    the order in which the in-degrees reached zero.  Both are topological
    orders of the same rounds, and the two passes are proved for every
    topological order ([forward_loop], [backward_loop]). *)
Fixpoint topological_generations (fuel : nat) (g : DiGraph.t)
    (done remaining : list string) : list string * bool :=
  match fuel with
  | O => (done, match remaining with [] => true | _ => false end)
  | S fuel' =>
      match filter (ready g done) remaining with
      | [] => (done, match remaining with [] => true | _ => false end)
      | gen =>
          topological_generations fuel' g (done ++ gen)
            (filter (fun v => negb (ready g done v)) remaining)
      end
  end.

(** [nx.topological_sort(G)], a generator *)
Definition topological_sort (g : DiGraph.t) : list string * bool :=
  topological_generations (List.length (DiGraph.nodes g)) g [] (DiGraph.nodes g).

Definition unfeasible : string :=
  "Graph contains a cycle or graph changed during iteration".

(** [nx.find_cycle(G)] returns a cycle of [G] and raises [NetworkXNoCycle]
    when [G] has none; the caller drops the cycle, so only the decision is
    kept: [true] for a cycle.  A directed graph has a cycle exactly when
    Kahn's algorithm leaves nodes behind ([find_cycle_iff_cycle] proves it
    of this definition). *)
Definition find_cycle (g : DiGraph.t) : bool :=
  negb (snd (topological_sort g)).

(** ** Graph construction *)

(** the two loops shared by [validate_tasks] and [_build_graph]:
    every task a node, then an edge [dep -> task_id] for every dependency *)
Definition add_edges_of (g : DiGraph.t) (task_id : string) (deps : list string)
    : DiGraph.t :=
  fold_left (fun g dep => DiGraph.add_edge g dep task_id) deps g.

Definition graph_of (t : Dict.t task_info) : DiGraph.t :=
  fold_left (fun g '(task_id, task_info) =>
               add_edges_of g task_id (dependencies task_info))
            t
            (fold_left DiGraph.add_node (Dict.keys t) DiGraph.empty).

(** [_build_graph] *)
Definition _build_graph : M unit :=
  fun s => Returns tt (with_graph (graph_of (tasks s)) s).

(** ** Validation *)

Definition unknown_dependency (task_id dep : string) : string :=
  ("Task '" ++ task_id ++ "' depends on non-existent task '" ++ dep ++ "'")%string.

Definition circular_dependency : string :=
  "Circular dependency detected in the project".

(** the first loop of [validate_tasks]: the first pair (task, dependency)
    whose dependency is not a key of the registry *)
Fixpoint first_missing (registry items : Dict.t task_info)
    : option (string * string) :=
  match items with
  | [] => None
  | (task_id, task_info) :: r =>
      match find (fun dep => negb (Dict.mem dep registry)) (dependencies task_info) with
      | Some dep => Some (task_id, dep)
      | None => first_missing registry r
      end
  end.

(** [validate_tasks] *)
Definition validate_tasks : M (bool * string) :=
  fun s =>
    match first_missing (tasks s) (tasks s) with
    | Some (task_id, dep) => Returns (false, unknown_dependency task_id dep) s
    | None =>
        let g := graph_of (tasks s) in
        if find_cycle g
        then Returns (false, circular_dependency) s
        else Returns (true, EmptyString) s
    end.

(** ** Forward pass *)

(** the body of the loop of [calculate_earliest_times] *)
Definition earliest_body (task_id : string) : M unit :=
  task_info <- tasks_get task_id ;;
  (match dependencies task_info with
   | [] => tasks_modify task_id (set_est 0)
   | deps =>
       max_eft <- fold_m (fun max_eft dep =>
                            dep_info <- tasks_get dep ;;
                            ret (Z.max max_eft (eft dep_info)))
                         deps 0 ;;
       tasks_modify task_id (set_est max_eft)
   end) ;;
  tasks_modify task_id (fun i => set_eft (est i + duration i) i).

(** [max(xs)] of a non-empty sequence *)
Definition max_of (x : Z) (xs : list Z) : Z := fold_left Z.max xs x.

(** [calculate_earliest_times]; the topological order is a generator, so
    the tasks it yields are processed before it raises.  The list
    [no_deps_tasks] that the method builds first is never read. *)
Definition calculate_earliest_times : M unit :=
  fun s =>
    let '(order, exhausted) := topological_sort (graph s) in
    (for_each order earliest_body ;;
     (if exhausted then ret tt else raise unfeasible) ;;
     (fun s => match Dict.values (tasks s) with
               | [] => Returns tt s
               | i :: r =>
                   Returns tt (with_project_duration (max_of (eft i) (map eft r)) s)
               end)) s.

(** ** Backward pass *)

(** [min(min_lst, x)] where [min_lst] starts at [float('inf')] ([None]) *)
Definition min_inf (min_lst : option Z) (x : Z) : option Z :=
  match min_lst with
  | None => Some x
  | Some m => Some (Z.min m x)
  end.

(** the body of the second loop of [calculate_latest_times] *)
Definition latest_body (task_id : string) : M unit :=
  _ <- tasks_get task_id ;;
  successors <- (fun s => Returns (DiGraph.successors (graph s) task_id) s) ;;
  (match successors with
   | [] => ret tt
   | _ =>
       min_lst <- fold_m (fun min_lst succ =>
                            succ_info <- tasks_get succ ;;
                            ret (min_inf min_lst (lst succ_info)))
                         successors None ;;
       match min_lst with
       | Some m => tasks_modify task_id (set_lft m)
       | None => ret tt   (* infinity: no successor was seen *)
       end
   end) ;;
  tasks_modify task_id (fun i => set_lst (lft i - duration i) i) ;;
  tasks_modify task_id (fun i => set_float (lst i - est i) i).

(** the body of the first loop: [self.tasks[task_id]['lft'] = self.project_duration] *)
Definition seed_body (task_id : string) : M unit :=
  fun s => tasks_modify task_id (set_lft (project_duration s)) s.

(** [calculate_latest_times]; [list(...)] runs the generator to its end
    before the second loop starts *)
Definition calculate_latest_times : M unit :=
  (fun s => for_each (Dict.keys (tasks s)) seed_body s) ;;
  (fun s =>
     let '(order, exhausted) := topological_sort (graph s) in
     if exhausted then for_each (rev order) latest_body s
     else Raises unfeasible s).

(** ** Critical path *)

(** the [while queue:] loop.  [visited] is a set, kept as a list.  The
    loop is run for [fuel] rounds and gives back the queue with the path;
    [bfs_fuel] rounds empty the queue ([bfs_terminates]). *)
Fixpoint bfs (fuel : nat) (sub : DiGraph.t)
    (queue visited path : list string) : list string * list string :=
  match fuel with
  | O => (queue, path)
  | S fuel' =>
      match queue with
      | [] => (queue, path)
      | task_id :: queue' =>
          if mem_list task_id visited then bfs fuel' sub queue' visited path
          else
            let visited' := task_id :: visited in
            bfs fuel' sub
                (queue' ++ filter (fun succ => negb (mem_list succ visited'))
                                  (DiGraph.successors sub task_id))
                visited' (path ++ [task_id])
      end
  end.

(** every entry of the queue is popped once and a node puts its successors
    in the queue once *)
Definition bfs_fuel (sub : DiGraph.t) (start : list string) : nat :=
  (List.length start
   + list_sum (map (fun n => List.length (DiGraph.successors sub n)) (DiGraph.nodes sub)))%nat.

Definition critical_tasks_of (t : Dict.t task_info) : list string :=
  map fst (filter (fun '(_, task_info) => float task_info =? 0) t).

(** [[t for t in critical_tasks if critical_subgraph.in_degree(t) == 0]];
    for a [t] outside the subgraph networkx returns a view, which is not
    equal to [0] *)
Definition start_tasks_of (sub : DiGraph.t) (critical_tasks : list string)
    : list string :=
  filter (fun t => DiGraph.has_node sub t && Nat.eqb (DiGraph.in_degree sub t) 0)
         critical_tasks.

(** [identify_critical_path] *)
Definition identify_critical_path : M unit :=
  fun s =>
    let critical_tasks := critical_tasks_of (tasks s) in
    let path :=
      match critical_tasks with
      | [] => []
      | _ =>
          let critical_subgraph := DiGraph.subgraph (graph s) critical_tasks in
          let start_tasks := start_tasks_of critical_subgraph critical_tasks in
          match start_tasks with
          | [] => []
          | _ => snd (bfs (bfs_fuel critical_subgraph start_tasks)
                          critical_subgraph start_tasks [] [])
          end
      end in
    Returns tt (with_critical_path path s).

(** ** The pipeline *)

(** [analyze]: validation first; [except Exception as e] turns whatever the
    four steps raise into the result [(False, str(e))] *)
Definition analyze : M (bool * string) :=
  fun s =>
    match validate_tasks s with
    | Raises e s' => Raises e s'
    | Returns (false, error_message) s' => Returns (false, error_message) s'
    | Returns (true, _) s' =>
        match (_build_graph ;;
               calculate_earliest_times ;;
               calculate_latest_times ;;
               identify_critical_path) s' with
        | Returns _ s'' => Returns (true, EmptyString) s''
        | Raises e s'' => Returns (false, e) s''
        end
    end.

(** ** Projects

    A project is what the public surface builds: [PERTDiagram()] followed by
    calls of [add_task] and [analyze]. *)

Inductive call : Type :=
| AddTask (task_id : string) (duration : Z) (dependencies : option (list string))
| Analyze.

Definition exec (d : PERTDiagram) (c : call) : PERTDiagram :=
  match c with
  | AddTask task_id dur deps => state_of (add_task task_id dur deps d)
  | Analyze => state_of (analyze d)
  end.

Definition run (cs : list call) : PERTDiagram := fold_left exec cs __init__.

Definition sample_chain : list call :=
  [AddTask "A" 3 None; AddTask "B" 4 (Some ["A"])].

Definition sample_diamond : list call :=
  [AddTask "A" 3 (Some []); AddTask "B" 4 (Some ["A"]); AddTask "C" 2 (Some ["A"]);
   AddTask "D" 5 (Some ["B"]); AddTask "E" 6 (Some ["C"]); AddTask "F" 4 (Some ["D"; "E"])].

(** ** Vocabulary of the specification, on the registry *)

(** a computed field of task [k], [0] when [k] is not registered *)
Definition field (f : task_info -> Z) (t : Dict.t task_info) (k : string) : Z :=
  match Dict.get k t with Some i => f i | None => 0 end.

Definition is_max (m : Z) (l : list Z) : Prop :=
  In m l /\ forall x, In x l -> x <= m.

Definition is_min (m : Z) (l : list Z) : Prop :=
  In m l /\ forall x, In x l -> m <= x.

(** task [T] declares the dependency [D] *)
Definition depends_on (t : Dict.t task_info) (T D : string) : Prop :=
  exists i, Dict.get T t = Some i /\ In D (dependencies i).

(** the successors of [D] in the dependency graph: the tasks that depend on
    [D], in the order of the registry *)
Definition successors_of (t : Dict.t task_info) (D : string) : list string :=
  map fst (filter (fun '(_, i) => mem_list D (dependencies i)) t).

(** a walk of one edge or more *)
Inductive path (E : string -> string -> Prop) : string -> string -> Prop :=
| path_edge u v : E u v -> path E u v
| path_step u v w : E u v -> path E v w -> path E u w.

(** the dependency graph has an edge from a dependency to its dependent *)
Definition dep_edge (t : Dict.t task_info) (u v : string) : Prop :=
  depends_on t v u.

Definition has_cycle (t : Dict.t task_info) : Prop :=
  exists x, path (dep_edge t) x x.

Definition unknown_dependency_in (t : Dict.t task_info) (T D : string) : Prop :=
  depends_on t T D /\ Dict.mem D t = false.

(** a task is critical when its slack is exactly zero *)
Definition is_critical (t : Dict.t task_info) (T : string) : bool :=
  match Dict.get T t with Some i => float i =? 0 | None => false end.

(** the critical tasks without a critical predecessor, in registry order *)
Definition critical_seeds (t : Dict.t task_info) : list string :=
  map fst (filter (fun '(T, i) =>
                     (float i =? 0)
                     && forallb (fun D => negb (is_critical t D)) (dependencies i))
                  t).

(** the successors of [T] in the subgraph induced by the critical tasks *)
Definition critical_successors (t : Dict.t task_info) (T : string) : list string :=
  filter (is_critical t) (successors_of t T).

(** breadth-first traversal as the specification words it: the queue is
    served from the front; a task seen before is dropped; a new task is
    appended to the path and its successors not yet visited join the queue.
    [bfs_order succ queue visited p]: serving [queue] with [visited] already
    seen appends exactly [p]. *)
Inductive bfs_order (succ : string -> list string)
    : list string -> list string -> list string -> Prop :=
| bfs_done visited : bfs_order succ [] visited []
| bfs_seen x queue visited p :
    In x visited ->
    bfs_order succ queue visited p ->
    bfs_order succ (x :: queue) visited p
| bfs_new x queue visited p :
    ~ In x visited ->
    bfs_order succ
      (queue ++ filter (fun y => negb (mem_list y (x :: visited))) (succ x))
      (x :: visited) p ->
    bfs_order succ (x :: queue) visited (x :: p).

(** a sequence of nodes in which every node comes after its predecessors and
    no node comes twice *)
Inductive topo_prefix (E : string -> string -> Prop) : list string -> Prop :=
| topo_nil : topo_prefix E []
| topo_snoc l v :
    topo_prefix E l ->
    ~ In v l ->
    (forall u, E u v -> In u l) ->
    topo_prefix E (l ++ [v]).

(** the edges of a graph *)
Definition gedge (g : DiGraph.t) (u v : string) : Prop :=
  In v (DiGraph.successors g u).

(** every registered duration is positive *)
Definition positive_durations (t : Dict.t task_info) : bool :=
  forallb (fun i => 0 <? duration i) (Dict.values t).


(** ** Read-only projections *)

(** a row of [get_task_table] *)
Record table_row : Type := mk_row {
  Task : string;
  Duration : Z;
  Dependencies : string;
  EST : Z;
  EFT : Z;
  LST : Z;
  LFT : Z;
  Float : Z;
  Critical : bool
}.

(** [get_task_table]: a row per entry of the registry; [Critical] is
    [task_id in self.critical_path] *)
Definition get_task_table (d : PERTDiagram) : list table_row :=
  map (fun '(task_id, task_info) =>
         mk_row task_id
                (duration task_info)
                (String.concat ", " (dependencies task_info))
                (est task_info) (eft task_info)
                (lst task_info) (lft task_info)
                (float task_info)
                (mem_list task_id (critical_path d)))
      (tasks d).

(** the dictionary returned by [get_project_summary] *)
Module Summary.
Record t : Type := mk {
  project_duration : Z;
  critical_path : string;
  num_tasks : nat;
  num_critical_tasks : nat
}.
End Summary.

(** the separator of the critical path in the summary: space, arrow
    (U+2192), space.  A Python [str] is kept as the bytes of its UTF-8
    encoding, in which searching for a well-formed substring finds the same
    occurrences as on the code points. *)
Definition arrow : string := "→".
Definition arrow_separator : string := " → ".

(** [get_project_summary] *)
Definition get_project_summary (d : PERTDiagram) : Summary.t :=
  Summary.mk (project_duration d)
             (String.concat arrow_separator (critical_path d))
             (List.length (tasks d))
             (List.length (critical_path d)).



(** ** Strings of the input boundary and of the reports *)

(** [s.split(sep)] for a non-empty [sep]: the pieces between the successive
    occurrences of [sep] found from the left, none overlapping the one
    before.  [skip] counts the characters of a found occurrence still to
    pass and [cur] is the piece being read. *)
Fixpoint split_from (sep s : string) (skip : nat) (cur : string) : list string :=
  match s with
  | EmptyString => [cur]
  | String c s' =>
      match skip with
      | S k => split_from sep s' k cur
      | O =>
          if prefix sep s
          then cur :: split_from sep s' (String.length sep - 1) EmptyString
          else split_from sep s' 0 (cur ++ String c EmptyString)%string
      end
  end.

Definition split (sep s : string) : list string :=
  split_from sep s 0 EmptyString.

(** [p in s] for strings *)
Fixpoint occurs (p s : string) : bool :=
  prefix p s
  || match s with
     | EmptyString => false
     | String _ s' => occurs p s'
     end.

(** the list of critical tasks that [export_tasks_to_txt] and
    [generate_pdf_report] read back from the summary:
    [summary['critical_path'].split(" -> ") if summary['critical_path'] else []],
    with the arrow for [->] *)
Definition report_critical_tasks (project_summary : Summary.t) : list string :=
  match Summary.critical_path project_summary with
  | EmptyString => []
  | text => split arrow_separator text
  end.

(** the column [Critical] of the two reports: ["Yes"] or ["No"] *)
Definition report_critical (project_summary : Summary.t) (task_id : string)
    : string :=
  if mem_list task_id (report_critical_tasks project_summary)
  then "Yes" else "No".

(** ** The input boundary *)

(** what [validate_task_input] returns: [(True, "", duration, dependencies)]
    or [(False, message, None, None)] *)
Inductive input_result : Type :=
| Accepted (duration : Z) (dependencies : list string)
| Rejected (message : string).

(** [utils.get_sample_data] *)
Definition get_sample_data : list (string * Z * list string) :=
  [("A", 3, []); ("B", 4, ["A"]); ("C", 2, ["A"]); ("D", 5, ["B"]);
   ("E", 6, ["C"]); ("F", 4, ["D"; "E"]); ("G", 3, ["F"])].

(** what the interface does to [st.session_state.pert_diagram] *)
Inductive ui_event : Type :=
| ResetProject
| LoadSampleProject
| SubmitTask (task_id duration dependencies : string)
| RunAnalysis.

Section InputBoundary.

(** two built-ins of Python are parameters: [float(s)], with [None] for
    [ValueError], and [s.strip()].  Numbers are whole numbers here as
    everywhere in the engine: a fraction, and a text that [float] reads as
    [nan] or as an infinity, are not inputs of this model.  What is proved
    of the interface below does not depend on the value of a duration. *)
Variable parse_float : string -> option Z.
Variable strip : string -> string.

(** [utils.validate_task_input] *)
Definition validate_task_input (task_id duration_str dependencies_str : string)
    (existing_tasks : list string) : input_result :=
  if String.eqb task_id EmptyString then Rejected "Task ID cannot be empty"
  else if mem_list task_id existing_tasks
  then Rejected ("Task ID '" ++ task_id ++ "' already exists")%string
  else
    match parse_float duration_str with
    | None => Rejected "Duration must be a number"
    | Some duration =>
        if duration <=? 0 then Rejected "Duration must be positive"
        else if String.eqb (strip dependencies_str) EmptyString
        then Accepted duration []
        else
          let dependencies := map strip (split "," dependencies_str) in
          match find (fun dep => negb (String.eqb dep EmptyString)
                                 && negb (mem_list dep existing_tasks))
                     dependencies with
          | Some dep => Rejected ("Dependency '" ++ dep ++ "' does not exist")%string
          | None => Accepted duration dependencies
          end
    end.

(** the submit branch of the form of [app.py]: the diagram and the error
    message it leaves *)
Definition submit_task (task_id duration dependencies : string)
    (d : PERTDiagram) : PERTDiagram * string :=
  let existing_tasks := Dict.keys (tasks d) in
  match validate_task_input task_id duration dependencies existing_tasks with
  | Accepted parsed_duration parsed_dependencies =>
      (state_of (add_task task_id parsed_duration (Some parsed_dependencies) d),
       EmptyString)
  | Rejected error_msg => (d, error_msg)
  end.

(** the handlers of [app.py] that write the diagram: the two buttons of the
    sidebar, the form, and a call of [analyze()] (the button and the tabs
    that analyze on display) *)
Definition ui_step (d : PERTDiagram) (e : ui_event) : PERTDiagram :=
  match e with
  | ResetProject => __init__
  | LoadSampleProject =>
      fold_left (fun d '(task_id, dur, deps) =>
                   state_of (add_task task_id dur (Some deps) d))
                get_sample_data __init__
  | SubmitTask task_id duration dependencies =>
      fst (submit_task task_id duration dependencies d)
  | RunAnalysis => state_of (analyze d)
  end.

Definition ui_run (events : list ui_event) : PERTDiagram :=
  fold_left ui_step events __init__.

End InputBoundary.

(** what the interface keeps of the registry: no duplicate, no empty
    identifier, positive durations, and every dependency empty or
    registered before its dependent *)
Definition entered_in_order (t : Dict.t task_info) : Prop :=
  NoDup (Dict.keys t)
  /\ ~ In EmptyString (Dict.keys t)
  /\ positive_durations t = true
  /\ topo_prefix (dep_edge t) (EmptyString :: Dict.keys t).

(** ** Comparing registries *)

(** [t1] and [t2] register the same identifiers with the same dependency
    lists, in any order, and the durations of [t1] are related by [cmp] to
    those of [t2] *)
Definition related (cmp : Z -> Z -> bool) (t1 t2 : Dict.t task_info) : bool :=
  Nat.eqb (List.length t1) (List.length t2)
  && forallb (fun '(k, i) =>
                match Dict.get k t2 with
                | Some j =>
                    cmp (duration i) (duration j)
                    && (if list_eq_dec string_dec (dependencies i) (dependencies j)
                        then true else false)
                | None => false
                end) t1.

(** ** Auxiliary notions of the proofs *)

(** what [add_edge] does to an adjacency list *)
Definition snoc_new (l : list string) (v : string) : list string :=
  if mem_list v l then l else l ++ [v].

(** all the dependencies declared in [t] are registered *)
Definition closed (t : Dict.t task_info) : Prop :=
  forall T i D, In (T, i) t -> In D (dependencies i) -> In D (Dict.keys t).

(** a list of nodes in which each is the target of the one before *)
Fixpoint chain (E : string -> string -> Prop) (l : list string) : Prop :=
  match l with
  | [] => True
  | a :: r => match r with [] => True | b :: _ => E a b /\ chain E r end
  end.

(** what the engine never writes: keys, durations and dependencies *)
Definition skeleton (t : Dict.t task_info) : list (string * (Z * list string)) :=
  map (fun '(k, i) => (k, (duration i, dependencies i))) t.

Definition deps_of (t : Dict.t task_info) (T : string) : list string :=
  match Dict.get T t with Some i => dependencies i | None => [] end.

(** the equations of the forward pass at task [T]; the running maximum
    starts at [0] as in the source *)
Definition forward_eq (t : Dict.t task_info) (T : string) : Prop :=
  field est t T = fold_left (fun m D => Z.max m (field eft t D)) (deps_of t T) 0
  /\ field eft t T = field est t T + field duration t T.

(** the equations of the backward pass at task [T] *)
Definition backward_eq (g : DiGraph.t) (pd : Z) (t : Dict.t task_info) (T : string)
    : Prop :=
  field lft t T
  = match fold_left (fun m S => min_inf m (field lst t S)) (DiGraph.successors g T) None with
    | Some m => m
    | None => pd
    end
  /\ field lst t T = field lft t T - field duration t T
  /\ field float t T = field lst t T - field est t T.

(** the work left to the traversal: the entries waiting in the queue and
    the adjacency lists of the nodes not visited yet *)
Definition bfs_measure (sub : DiGraph.t) (queue visited : list string) : nat :=
  (List.length queue
   + list_sum (map (fun n => List.length (DiGraph.successors sub n))
                   (filter (fun n => negb (mem_list n visited)) (DiGraph.nodes sub))))%nat.

(** what the registry must be for the passes to run: no duplicate key
    (a Python dictionary has none), dependencies registered, no cycle *)
Definition valid_registry (t : Dict.t task_info) : Prop :=
  NoDup (Dict.keys t)
  /\ first_missing t t = None
  /\ find_cycle (graph_of t) = false.

(** what holds of every project: the registry has no duplicate key, and the
    duration of a project without task is the initial [0] *)
Definition well_formed (d : PERTDiagram) : Prop :=
  NoDup (Dict.keys (tasks d))
  /\ (tasks d = [] -> project_duration d = 0 /\ critical_path d = []).

Definition content_le (t1 t2 : Dict.t task_info) : Prop :=
  (forall k, In k (Dict.keys t1) <-> In k (Dict.keys t2))
  /\ (forall T, deps_of t1 T = deps_of t2 T)
  /\ (forall T, field duration t1 T <= field duration t2 T).

(** * Proofs *)

(** ** Dictionaries *)

Lemma mem_list_In (x : string) (l : list string) :
  mem_list x l = true <-> In x l.
Proof.
  unfold mem_list. rewrite existsb_exists. split.
  - intros [y [Hy He]]. apply String.eqb_eq in He. now subst.
  - intros H. exists x. split; [assumption | apply String.eqb_refl].
Qed.

Lemma mem_list_false (x : string) (l : list string) :
  mem_list x l = false <-> ~ In x l.
Proof.
  rewrite <- mem_list_In. destruct (mem_list x l); split; congruence.
Qed.

Section DictFacts.
Context {V : Type}.
Implicit Types (d : Dict.t V) (k x : string).

Lemma get_modify x k (f : V -> V) d :
  Dict.get x (Dict.modify k f d)
  = if String.eqb x k then option_map f (Dict.get x d) else Dict.get x d.
Proof.
  induction d as [|[k' v'] r IH]; simpl.
  - now destruct (String.eqb x k).
  - destruct (String.eqb_spec k k') as [->|Hk]; simpl.
    + destruct (String.eqb_spec x k'); reflexivity.
    + destruct (String.eqb_spec x k') as [->|Hx].
      * destruct (String.eqb_spec k' k); [congruence | reflexivity].
      * exact IH.
Qed.

Lemma keys_modify k (f : V -> V) d :
  Dict.keys (Dict.modify k f d) = Dict.keys d.
Proof.
  unfold Dict.keys. induction d as [|[k' v'] r IH]; simpl; [reflexivity|].
  destruct (String.eqb k k'); simpl; [reflexivity | now rewrite IH].
Qed.

Lemma get_set x k (v : V) d :
  Dict.get x (Dict.set k v d)
  = if String.eqb x k then Some v else Dict.get x d.
Proof.
  induction d as [|[k' v'] r IH]; simpl.
  - reflexivity.
  - destruct (String.eqb_spec k k') as [->|Hk]; simpl.
    + destruct (String.eqb_spec x k'); reflexivity.
    + destruct (String.eqb_spec x k') as [->|Hx].
      * destruct (String.eqb_spec k' k); [congruence | reflexivity].
      * exact IH.
Qed.

Lemma get_None k d : Dict.get k d = None <-> ~ In k (Dict.keys d).
Proof.
  unfold Dict.keys. induction d as [|[k' v'] r IH]; simpl.
  - tauto.
  - destruct (String.eqb_spec k k') as [->|Hk].
    + split; [discriminate | tauto].
    + rewrite IH. split; [intros H [E|I]; congruence + tauto | tauto].
Qed.

Lemma get_Some_keys k d v : Dict.get k d = Some v -> In k (Dict.keys d).
Proof.
  intros H. destruct (in_dec string_dec k (Dict.keys d)) as [I|N]; [exact I|].
  apply get_None in N. congruence.
Qed.

Lemma keys_get k d : In k (Dict.keys d) -> exists v, Dict.get k d = Some v.
Proof.
  intros H. destruct (Dict.get k d) eqn:E; [eauto|].
  apply get_None in E. contradiction.
Qed.

Lemma mem_keys k d : Dict.mem k d = true <-> In k (Dict.keys d).
Proof.
  unfold Dict.mem. split.
  - destruct (Dict.get k d) eqn:E; [intros _; eapply get_Some_keys; eauto | discriminate].
  - intros H. apply keys_get in H as [v ->]. reflexivity.
Qed.

Lemma mem_false_keys k d : Dict.mem k d = false <-> ~ In k (Dict.keys d).
Proof.
  rewrite <- mem_keys. destruct (Dict.mem k d); split; congruence.
Qed.

Lemma keys_set k (v : V) d :
  Dict.keys (Dict.set k v d)
  = if Dict.mem k d then Dict.keys d else Dict.keys d ++ [k].
Proof.
  unfold Dict.keys, Dict.mem. induction d as [|[k' v'] r IH]; simpl.
  - reflexivity.
  - destruct (String.eqb_spec k k') as [->|Hk]; simpl.
    + reflexivity.
    + rewrite IH. now destruct (Dict.get k r).
Qed.

Lemma NoDup_keys_set k (v : V) d :
  NoDup (Dict.keys d) -> NoDup (Dict.keys (Dict.set k v d)).
Proof.
  intros H. rewrite keys_set. destruct (Dict.mem k d) eqn:E; [exact H|].
  apply mem_false_keys in E.
  apply NoDup_rev in H. rewrite <- (rev_involutive (_ ++ _)).
  apply NoDup_rev. rewrite rev_app_distr. simpl. constructor; [|exact H].
  now rewrite <- in_rev.
Qed.

Lemma get_app x d1 d2 :
  Dict.get x (d1 ++ d2)
  = match Dict.get x d1 with Some v => Some v | None => Dict.get x d2 end.
Proof.
  induction d1 as [|[k' v'] r IH]; simpl; [reflexivity|].
  now destruct (String.eqb x k').
Qed.

Lemma In_get k (v : V) d :
  NoDup (Dict.keys d) -> In (k, v) d -> Dict.get k d = Some v.
Proof.
  unfold Dict.keys. induction d as [|[k' v'] r IH]; simpl; [tauto|].
  intros N [E|I].
  - inversion E; subst. now rewrite String.eqb_refl.
  - inversion N as [|? ? Hn Hr]; subst.
    destruct (String.eqb_spec k k') as [->|Hk].
    + exfalso. apply Hn. change k' with (fst (k', v)). now apply in_map.
    + now apply IH.
Qed.

Lemma get_In k (v : V) d : Dict.get k d = Some v -> In (k, v) d.
Proof.
  induction d as [|[k' v'] r IH]; simpl; [discriminate|].
  destruct (String.eqb_spec k k') as [->|Hk].
  - intros E. inversion E. now left.
  - intros E. right. now apply IH.
Qed.

(** dictionaries with the same keys in the same order and the same values
    are equal *)
Lemma dict_ext d1 d2 :
  NoDup (Dict.keys d1) ->
  Dict.keys d1 = Dict.keys d2 ->
  (forall k, Dict.get k d1 = Dict.get k d2) ->
  d1 = d2.
Proof.
  unfold Dict.keys. revert d2.
  induction d1 as [|[k1 v1] r1 IH]; intros [|[k2 v2] r2]; simpl; try discriminate.
  - reflexivity.
  - intros N K G. inversion K; subst. inversion N as [|? ? Hn Hr]; subst.
    pose proof (G k2) as G2. simpl in G2. rewrite String.eqb_refl in G2.
    inversion G2; subst. f_equal. apply IH; [assumption | assumption |].
    intros k. specialize (G k). simpl in G.
    destruct (String.eqb k k2) eqn:Ek; [|exact G].
    apply String.eqb_eq in Ek. subst k.
    assert (E1 : Dict.get k2 r1 = None) by (apply get_None; exact Hn).
    assert (E2 : Dict.get k2 r2 = None).
    { apply get_None. unfold Dict.keys. now rewrite <- H1. }
    now rewrite E1, E2.
Qed.

End DictFacts.

(** ** Graphs *)

Lemma snoc_new_idem l v : snoc_new (snoc_new l v) v = snoc_new l v.
Proof.
  unfold snoc_new. destruct (mem_list v l) eqn:E.
  - now rewrite E.
  - assert (H : mem_list v (l ++ [v]) = true).
    { apply mem_list_In, in_or_app. right. now left. }
    now rewrite H.
Qed.

Lemma successors_add_node g n x :
  DiGraph.successors (DiGraph.add_node g n) x = DiGraph.successors g x.
Proof.
  unfold DiGraph.add_node, DiGraph.has_node, DiGraph.successors.
  destruct (Dict.mem n g) eqn:E; [reflexivity|].
  rewrite get_app. destruct (Dict.get x g) eqn:G; [reflexivity|].
  simpl. now destruct (String.eqb x n).
Qed.

Lemma nodes_add_node g n :
  DiGraph.nodes (DiGraph.add_node g n)
  = if DiGraph.has_node g n then DiGraph.nodes g else DiGraph.nodes g ++ [n].
Proof.
  unfold DiGraph.add_node, DiGraph.nodes, Dict.keys.
  destruct (DiGraph.has_node g n); [reflexivity|].
  now rewrite map_app.
Qed.

Lemma nodes_add_node_present g n :
  In n (DiGraph.nodes g) -> DiGraph.add_node g n = g.
Proof.
  intros H. unfold DiGraph.add_node, DiGraph.has_node.
  apply mem_keys in H. unfold DiGraph.nodes in H. now rewrite H.
Qed.

Lemma in_nodes_add_node g n : In n (DiGraph.nodes (DiGraph.add_node g n)).
Proof.
  rewrite nodes_add_node. unfold DiGraph.has_node.
  destruct (Dict.mem n g) eqn:E.
  - now apply mem_keys.
  - apply in_or_app. right. now left.
Qed.

Lemma in_nodes_add_node_mono g n x :
  In x (DiGraph.nodes g) -> In x (DiGraph.nodes (DiGraph.add_node g n)).
Proof.
  intros H. rewrite nodes_add_node.
  destruct (DiGraph.has_node g n); [exact H | apply in_or_app; now left].
Qed.

Lemma successors_add_edge g u v x :
  DiGraph.successors (DiGraph.add_edge g u v) x
  = if String.eqb x u then snoc_new (DiGraph.successors g u) v
    else DiGraph.successors g x.
Proof.
  unfold DiGraph.add_edge.
  set (g' := DiGraph.add_node (DiGraph.add_node g u) v).
  assert (S' : forall y, DiGraph.successors g' y = DiGraph.successors g y).
  { intros y. unfold g'. now rewrite !successors_add_node. }
  assert (N : In u (DiGraph.nodes g')).
  { unfold g'. apply in_nodes_add_node_mono, in_nodes_add_node. }
  unfold DiGraph.has_edge. fold (mem_list v (DiGraph.successors g' u)).
  unfold snoc_new. rewrite S'.
  destruct (mem_list v (DiGraph.successors g u)) eqn:E.
  - rewrite S'. destruct (String.eqb_spec x u); now subst.
  - unfold DiGraph.successors at 1. rewrite get_modify.
    destruct (String.eqb_spec x u) as [->|Hx].
    + apply keys_get in N as [l Hl].
      rewrite Hl. simpl. specialize (S' u). unfold DiGraph.successors in S' at 1.
      rewrite Hl in S'. now rewrite S'.
    + apply S'.
Qed.

Lemma nodes_add_edge_present g u v :
  In u (DiGraph.nodes g) -> In v (DiGraph.nodes g) ->
  DiGraph.nodes (DiGraph.add_edge g u v) = DiGraph.nodes g.
Proof.
  intros Hu Hv. unfold DiGraph.add_edge.
  rewrite (nodes_add_node_present g u Hu), (nodes_add_node_present g v Hv).
  destruct (DiGraph.has_edge g u v); [reflexivity|].
  apply keys_modify.
Qed.

Lemma successors_add_edges_of deps g T D :
  DiGraph.successors (add_edges_of g T deps) D
  = if mem_list D deps then snoc_new (DiGraph.successors g D) T
    else DiGraph.successors g D.
Proof.
  unfold add_edges_of. revert g.
  induction deps as [|d ds IH]; intros g; simpl; [reflexivity|].
  rewrite IH, successors_add_edge.
  destruct (String.eqb_spec D d) as [->|Hd]; simpl.
  - destruct (mem_list d ds); [apply snoc_new_idem | reflexivity].
  - reflexivity.
Qed.

Lemma nodes_add_edges_of deps g T :
  In T (DiGraph.nodes g) ->
  (forall D, In D deps -> In D (DiGraph.nodes g)) ->
  DiGraph.nodes (add_edges_of g T deps) = DiGraph.nodes g.
Proof.
  unfold add_edges_of. revert g.
  induction deps as [|d ds IH]; intros g HT HD; simpl; [reflexivity|].
  assert (E : DiGraph.nodes (DiGraph.add_edge g d T) = DiGraph.nodes g).
  { apply nodes_add_edge_present; [apply HD; now left | exact HT]. }
  rewrite IH; [exact E | now rewrite E |].
  intros D I. rewrite E. apply HD. now right.
Qed.

Lemma nodes_fold_add_node l g :
  NoDup (DiGraph.nodes g ++ l) ->
  DiGraph.nodes (fold_left DiGraph.add_node l g) = DiGraph.nodes g ++ l.
Proof.
  revert g. induction l as [|n l IH]; intros g N; simpl.
  - now rewrite app_nil_r.
  - assert (Hn : DiGraph.has_node g n = false).
    { unfold DiGraph.has_node. apply mem_false_keys.
      apply NoDup_remove_2 in N. intros I. apply N, in_or_app. now left. }
    assert (E : DiGraph.nodes (DiGraph.add_node g n) = DiGraph.nodes g ++ [n]).
    { rewrite nodes_add_node. now rewrite Hn. }
    rewrite IH; rewrite E, <- app_assoc; [reflexivity | exact N].
Qed.

Lemma successors_fold_add_node l g x :
  DiGraph.successors (fold_left DiGraph.add_node l g) x = DiGraph.successors g x.
Proof.
  revert g. induction l as [|n l IH]; intros g; simpl; [reflexivity|].
  now rewrite IH, successors_add_node.
Qed.

Lemma nodes_fold_edges its g (K : list string) :
  DiGraph.nodes g = K ->
  (forall T i, In (T, i) its ->
     In T K /\ forall D, In D (dependencies i) -> In D K) ->
  DiGraph.nodes
    (fold_left (fun g '(task_id, task_info) =>
                  add_edges_of g task_id (dependencies task_info)) its g) = K.
Proof.
  revert g. induction its as [|[T i] r IH]; intros g E H; simpl; [exact E|].
  destruct (H T i (or_introl eq_refl)) as [HT HD].
  apply IH.
  - rewrite nodes_add_edges_of; rewrite ?E; auto.
  - intros T' i' I. apply H. now right.
Qed.

Lemma nodes_graph_of t :
  NoDup (Dict.keys t) -> closed t ->
  DiGraph.nodes (graph_of t) = Dict.keys t.
Proof.
  intros N C. unfold graph_of. apply nodes_fold_edges.
  - now rewrite nodes_fold_add_node.
  - intros T i I. split.
    + change T with (fst (T, i)). now apply in_map.
    + intros D J. eapply C; eauto.
Qed.

Lemma in_nodes_add_edge_mono g u v x :
  In x (DiGraph.nodes g) -> In x (DiGraph.nodes (DiGraph.add_edge g u v)).
Proof.
  intros H. unfold DiGraph.add_edge.
  assert (I : In x (DiGraph.nodes (DiGraph.add_node (DiGraph.add_node g u) v)))
    by now apply in_nodes_add_node_mono, in_nodes_add_node_mono.
  destruct (DiGraph.has_edge _ u v); [exact I|].
  unfold DiGraph.nodes. now rewrite keys_modify.
Qed.

Lemma in_nodes_add_node_fold l g x :
  In x (DiGraph.nodes g) \/ In x l ->
  In x (DiGraph.nodes (fold_left DiGraph.add_node l g)).
Proof.
  revert g. induction l as [|n l IH]; intros g [J|J]; simpl;
    try assumption; try contradiction.
  - apply IH. left. now apply in_nodes_add_node_mono.
  - destruct J as [<-|J]; apply IH; [left; apply in_nodes_add_node | now right].
Qed.

Lemma in_nodes_add_edges_of deps g T x :
  In x (DiGraph.nodes g) -> In x (DiGraph.nodes (add_edges_of g T deps)).
Proof.
  unfold add_edges_of. revert g.
  induction deps as [|d ds IH]; intros g I; simpl; [exact I|].
  apply IH. now apply in_nodes_add_edge_mono.
Qed.

Lemma in_nodes_fold_edges its g x :
  In x (DiGraph.nodes g) ->
  In x (DiGraph.nodes
          (fold_left (fun g '(task_id, task_info) =>
                        add_edges_of g task_id (dependencies task_info)) its g)).
Proof.
  revert g. induction its as [|[T i] r IH]; intros g I; simpl; [exact I|].
  apply IH. now apply in_nodes_add_edges_of.
Qed.

(** every registered task is a node of the built graph *)
Lemma keys_in_graph_of t x :
  In x (Dict.keys t) -> In x (DiGraph.nodes (graph_of t)).
Proof.
  intros H. unfold graph_of. apply in_nodes_fold_edges, in_nodes_add_node_fold.
  now right.
Qed.

Lemma successors_fold_edges its g D :
  NoDup (Dict.keys its) ->
  (forall T, In T (Dict.keys its) -> ~ In T (DiGraph.successors g D)) ->
  DiGraph.successors
    (fold_left (fun g '(task_id, task_info) =>
                  add_edges_of g task_id (dependencies task_info)) its g) D
  = DiGraph.successors g D ++ successors_of its D.
Proof.
  unfold successors_of, Dict.keys. revert g.
  induction its as [|[T i] r IH]; intros g N F; simpl.
  - now rewrite app_nil_r.
  - inversion N as [|? ? Hn Hr]; subst.
    assert (HT : mem_list T (DiGraph.successors g D) = false).
    { apply mem_list_false, F. now left. }
    rewrite IH; [| exact Hr |].
    + rewrite successors_add_edges_of. unfold snoc_new. rewrite HT.
      destruct (mem_list D (dependencies i)); simpl;
        [now rewrite <- app_assoc | reflexivity].
    + intros T' I. rewrite successors_add_edges_of. unfold snoc_new. rewrite HT.
      assert (~ In T' (DiGraph.successors g D)) by (apply F; now right).
      destruct (mem_list D (dependencies i)); [|assumption].
      intros J. apply in_app_or in J as [J|[J|[]]]; [contradiction|].
      subst. contradiction.
Qed.

(** the adjacency list of a task in the built graph is the list of its
    dependents in registry order *)
Lemma successors_graph_of t D :
  NoDup (Dict.keys t) ->
  DiGraph.successors (graph_of t) D = successors_of t D.
Proof.
  intros N. unfold graph_of. rewrite successors_fold_edges; [| exact N |].
  - now rewrite successors_fold_add_node.
  - intros T _. now rewrite successors_fold_add_node.
Qed.

Lemma in_successors_of t D T :
  NoDup (Dict.keys t) ->
  In T (successors_of t D) <-> depends_on t T D.
Proof.
  intros N. unfold successors_of, depends_on. rewrite in_map_iff. split.
  - intros [[T' i] [E I]]. simpl in E. subst T'.
    apply filter_In in I as [I M]. exists i. split.
    + now apply In_get.
    + now apply mem_list_In.
  - intros [i [G I]]. exists (T, i). split; [reflexivity|].
    apply filter_In. split; [now apply get_In | now apply mem_list_In].
Qed.

Lemma nodes_subgraph g nbunch :
  DiGraph.nodes (DiGraph.subgraph g nbunch)
  = filter (fun n => mem_list n nbunch) (DiGraph.nodes g).
Proof.
  unfold DiGraph.nodes, DiGraph.subgraph, Dict.keys.
  induction g as [|[n l] r IH]; simpl; [reflexivity|].
  fold (mem_list n nbunch). destruct (mem_list n nbunch); simpl; now rewrite IH.
Qed.

Lemma successors_subgraph g nbunch x :
  DiGraph.successors (DiGraph.subgraph g nbunch) x
  = if mem_list x nbunch
    then filter (fun n => mem_list n nbunch) (DiGraph.successors g x)
    else [].
Proof.
  unfold DiGraph.successors, DiGraph.subgraph.
  induction g as [|[n l] r IH]; simpl.
  - now destruct (mem_list x nbunch).
  - fold (mem_list n nbunch).
    destruct (String.eqb_spec x n) as [->|Hx].
    + destruct (mem_list n nbunch) eqn:E; simpl.
      * now rewrite String.eqb_refl.
      * rewrite IH. reflexivity.
    + destruct (mem_list n nbunch) eqn:E; simpl.
      * destruct (String.eqb_spec x n); [contradiction | exact IH].
      * exact IH.
Qed.

(** ** Walks, cycles and topological orders *)

Section Walks.
Variable E : string -> string -> Prop.

Lemma path_last a b : path E a b -> exists u, E u b /\ (a = u \/ path E a u).
Proof.
  induction 1 as [u v H | u v w H P [x [Hx Hor]]].
  - exists u. auto.
  - exists x. split; [exact Hx|]. right.
    destruct Hor as [->|Q]; [now apply path_edge | now apply path_step with v].
Qed.

Lemma path_first a b : path E a b -> exists v, E a v.
Proof. destruct 1; eauto. Qed.

Lemma topo_prefix_closed l u v :
  topo_prefix E l -> E u v -> In v l -> In u l.
Proof.
  induction 1 as [|l w T IH Hw Hp]; intros He Hv; [contradiction|].
  apply in_or_app. apply in_app_or in Hv as [Hv|[->|[]]]; left; auto.
Qed.

Lemma topo_prefix_closed_path l u v :
  topo_prefix E l -> path E u v -> In v l -> In u l.
Proof.
  intros T P. induction P as [a b H | a b c H P IH]; intros Hv.
  - eapply topo_prefix_closed; eauto.
  - eapply topo_prefix_closed; eauto.
Qed.

Lemma topo_prefix_NoDup l : topo_prefix E l -> NoDup l.
Proof.
  induction 1 as [|l v T IH Hv Hp]; [constructor|].
  apply NoDup_rev in IH. rewrite <- (rev_involutive (l ++ [v])).
  apply NoDup_rev. rewrite rev_app_distr. simpl. constructor; [|exact IH].
  now rewrite <- in_rev.
Qed.

Lemma topo_prefix_acyclic l x :
  topo_prefix E l -> In x l -> ~ path E x x.
Proof.
  induction 1 as [|l v T IH Hv Hp]; intros Hx P; [contradiction|].
  apply in_app_or in Hx as [Hx|[->|[]]]; [now apply IH|].
  destruct (path_last _ _ P) as [u [Hu [->|Q]]].
  - apply Hv, Hp, Hu.
  - apply Hv. eapply topo_prefix_closed_path; eauto.
Qed.

(** extending a topological prefix by nodes whose predecessors are in it *)
Lemma topo_prefix_app l gen :
  topo_prefix E l ->
  NoDup gen ->
  (forall v, In v gen -> ~ In v l /\ forall u, E u v -> In u l) ->
  topo_prefix E (l ++ gen).
Proof.
  intros T N. revert l T. induction N as [|v gen Hv N IH]; intros l T H.
  - now rewrite app_nil_r.
  - change (v :: gen) with ([v] ++ gen). rewrite app_assoc. apply IH.
    + destruct (H v (or_introl eq_refl)) as [H1 H2]. now constructor.
    + intros w I. destruct (H w (or_intror I)) as [H1 H2]. split.
      * intros J. apply in_app_or in J as [J|[->|[]]]; contradiction.
      * intros u He. apply in_or_app. left. auto.
Qed.

Lemma chain_app_r l1 l2 : chain E (l1 ++ l2) -> chain E l2.
Proof.
  induction l1 as [|a r IH]; simpl; [tauto|].
  destruct (r ++ l2) as [|b q] eqn:Q.
  - apply app_eq_nil in Q as [_ ->]. simpl. tauto.
  - intros [_ H]. auto.
Qed.

Lemma chain_app_l l1 l2 : chain E (l1 ++ l2) -> chain E l1.
Proof.
  induction l1 as [|a r IH]; simpl; [tauto|].
  destruct r as [|b r'].
  - tauto.
  - simpl in *. intros [H1 H2]. split; [exact H1 | apply IH, H2].
Qed.

Lemma chain_path l x y : chain E (x :: l ++ [y]) -> path E x y.
Proof.
  revert x. induction l as [|a r IH]; intros x.
  - simpl. intros [H _]. now apply path_edge.
  - intros H. change (x :: (a :: r) ++ [y]) with (x :: a :: r ++ [y]) in H.
    destruct H as [H1 H2]. apply path_step with a; [exact H1 | apply IH, H2].
Qed.

Lemma duplicate_split (l : list string) :
  NoDup l \/ exists x l1 l2 l3, l = l1 ++ x :: l2 ++ x :: l3.
Proof.
  induction l as [|a l [N|[x [l1 [l2 [l3 ->]]]]]].
  - left. constructor.
  - destruct (in_dec string_dec a l) as [I|I].
    + right. apply in_split in I as [l2 [l3 ->]]. now exists a, [], l2, l3.
    + left. now constructor.
  - right. now exists x, (a :: l1), l2, l3.
Qed.

(** a non-empty finite set of nodes each of which has a predecessor in the
    set contains a cycle *)
Lemma closed_backwards_cycle (R : list string) :
  R <> [] ->
  (forall v, In v R -> exists u, In u R /\ E u v) ->
  exists x, path E x x.
Proof.
  intros HR H.
  assert (L : forall n : nat, exists l,
             List.length l = S n /\ incl l R /\ chain E l).
  { induction n as [|n [l [Hl [Hi Hc]]]].
    - destruct R as [|v R']; [congruence|]. exists [v]. simpl.
      repeat split. intros x [->|[]]. now left.
    - destruct l as [|h r]; [discriminate|].
      destruct (H h (Hi h (or_introl eq_refl))) as [u [Hu He]].
      exists (u :: h :: r). split; [simpl in *; lia|]. split.
      + intros x [->|I]; auto.
      + split; assumption. }
  destruct (L (List.length R)) as [l [Hl [Hi Hc]]].
  destruct (duplicate_split l) as [N|[x [l1 [l2 [l3 ->]]]]].
  - pose proof (NoDup_incl_length N Hi). lia.
  - exists x. apply chain_app_r in Hc.
    change (x :: l2 ++ x :: l3) with (x :: l2 ++ [x] ++ l3) in Hc.
    rewrite app_assoc, app_comm_cons in Hc. apply chain_app_l in Hc.
    now apply chain_path with l2.
Qed.

End Walks.

(** ** Kahn's algorithm *)

Lemma gedge_node g u v : gedge g u v -> In u (DiGraph.nodes g).
Proof.
  unfold gedge, DiGraph.successors, DiGraph.nodes.
  destruct (Dict.get u g) eqn:G; [|contradiction].
  intros _. eapply get_Some_keys; eauto.
Qed.

Lemma in_predecessors g u v :
  In u (DiGraph.predecessors g v) <-> gedge g u v.
Proof.
  unfold DiGraph.predecessors. rewrite filter_In.
  unfold DiGraph.has_edge. fold (mem_list v (DiGraph.successors g u)).
  rewrite mem_list_In. split; [tauto|].
  intros H. split; [eapply gedge_node; eauto | exact H].
Qed.

Lemma ready_true g done v :
  ready g done v = true <-> forall u, gedge g u v -> In u done.
Proof.
  unfold ready. rewrite forallb_forall. split.
  - intros H u He. apply mem_list_In, H, in_predecessors, He.
  - intros H u I. apply mem_list_In, H, in_predecessors, I.
Qed.

Lemma ready_false g done v :
  ready g done v = false -> exists u, gedge g u v /\ ~ In u done.
Proof.
  unfold ready. intros H.
  assert (X : existsb (fun u => negb (mem_list u done)) (DiGraph.predecessors g v) = true).
  { induction (DiGraph.predecessors g v) as [|a r IH]; simpl in *; [discriminate|].
    destruct (mem_list a done); simpl in *; auto. }
  apply existsb_exists in X as [u [I N]]. exists u. split.
  - now apply in_predecessors.
  - apply mem_list_false. now destruct (mem_list u done).
Qed.

Lemma filter_split_length {A} (p : A -> bool) (l : list A) :
  (List.length (filter p l) + List.length (filter (fun x => negb (p x)) l)
   = List.length l)%nat.
Proof.
  induction l as [|a r IH]; simpl; [reflexivity|].
  destruct (p a); simpl; lia.
Qed.

Lemma topological_generations_sound g fuel :
  forall done remaining order b,
    topo_prefix (gedge g) done ->
    NoDup remaining ->
    (forall x, In x remaining -> ~ In x done) ->
    topological_generations fuel g done remaining = (order, b) ->
    topo_prefix (gedge g) order
    /\ (forall x, In x done -> In x order)
    /\ (forall x, In x order -> In x done \/ In x remaining)
    /\ (b = true -> forall x, In x remaining -> In x order).
Proof.
  induction fuel as [|fuel IH]; intros done remaining order b T N D; simpl.
  - intros Q. inversion Q; subst. repeat split; auto.
    destruct remaining; [intros _ x [] | discriminate].
  - destruct (filter (ready g done) remaining) as [|a gen'] eqn:G.
    + intros Q. inversion Q; subst. repeat split; auto.
      destruct remaining; [intros _ x [] | discriminate].
    + rewrite <- G. intros Q. apply IH in Q.
      * destruct Q as [Q1 [Q2 [Q3 Q4]]]. split; [exact Q1|]. split; [|split].
        -- intros x I. apply Q2, in_or_app. now left.
        -- intros x I. apply Q3 in I as [I|I].
           ++ apply in_app_or in I as [I|I]; [now left|].
              right. now apply filter_In in I as [I _].
           ++ right. now apply filter_In in I as [I _].
        -- intros Hb x I. destruct (ready g done x) eqn:R.
           ++ apply Q2, in_or_app. right. apply filter_In. auto.
           ++ apply Q4; [exact Hb|]. apply filter_In. now rewrite R.
      * apply topo_prefix_app; [exact T | now apply NoDup_filter |].
        intros v I. apply filter_In in I as [I R]. split; [now apply D|].
        now apply ready_true.
      * now apply NoDup_filter.
      * intros x I J. apply filter_In in I as [I R].
        apply in_app_or in J as [J|J]; [now apply (D x)|].
        apply filter_In in J as [_ J]. rewrite J in R. discriminate.
Qed.

Lemma topological_generations_stuck g fuel :
  forall done remaining order,
    (List.length remaining <= fuel)%nat ->
    (forall x, In x (DiGraph.nodes g) -> In x done \/ In x remaining) ->
    topological_generations fuel g done remaining = (order, false) ->
    exists x, path (gedge g) x x.
Proof.
  induction fuel as [|fuel IH]; intros done remaining order L C; simpl.
  - destruct remaining; [discriminate | simpl in L; lia].
  - destruct (filter (ready g done) remaining) as [|a gen'] eqn:G.
    + intros Q. apply closed_backwards_cycle with remaining.
      * destruct remaining; [discriminate | congruence].
      * intros v I. destruct (ready g done v) eqn:R.
        -- assert (J : In v (filter (ready g done) remaining))
             by (apply filter_In; auto).
           rewrite G in J. contradiction.
        -- apply ready_false in R as [u [He Hn]]. exists u. split; [|exact He].
           destruct (C u (gedge_node _ _ _ He)); [contradiction | assumption].
    + rewrite <- G. apply IH.
      * pose proof (filter_split_length (ready g done) remaining) as F.
        rewrite G in F. simpl in F. lia.
      * intros x I. destruct (C x I) as [J|J].
        -- left. apply in_or_app. now left.
        -- destruct (ready g done x) eqn:R.
           ++ left. apply in_or_app. right. apply filter_In. auto.
           ++ right. apply filter_In. now rewrite R.
Qed.

(** [topological_sort] on a graph: the sequence it yields is a topological
    order of the nodes it contains; it ends normally exactly on the graphs
    without a cycle, and has then yielded every node. *)
Lemma topological_sort_sound g order b :
  NoDup (DiGraph.nodes g) ->
  topological_sort g = (order, b) ->
  topo_prefix (gedge g) order
  /\ (forall x, In x order -> In x (DiGraph.nodes g))
  /\ (b = true -> forall x, In x (DiGraph.nodes g) -> In x order).
Proof.
  intros N Q. unfold topological_sort in Q.
  apply topological_generations_sound in Q; [| constructor | exact N | auto].
  destruct Q as [Q1 [_ [Q3 Q4]]]. repeat split; auto.
  intros x I. destruct (Q3 x I) as [[]|J]; exact J.
Qed.

Lemma find_cycle_iff_cycle g :
  NoDup (DiGraph.nodes g) ->
  find_cycle g = true <-> exists x, path (gedge g) x x.
Proof.
  intros N. unfold find_cycle.
  destruct (topological_sort g) as [order b] eqn:Q. simpl. split.
  - intros Hb. destruct b; [discriminate|].
    unfold topological_sort in Q.
    eapply topological_generations_stuck; [| | exact Q]; auto.
  - intros [x P]. destruct b; [|reflexivity]. exfalso.
    destruct (topological_sort_sound _ _ _ N Q) as [T [_ A]].
    apply (topo_prefix_acyclic _ _ x T); [|exact P].
    apply A; [reflexivity|].
    destruct (path_first _ _ _ P) as [v He]. eapply gedge_node; eauto.
Qed.

(** ** Skeleton of the registry *)

Lemma skeleton_modify k f t :
  (forall i, duration (f i) = duration i /\ dependencies (f i) = dependencies i) ->
  skeleton (Dict.modify k f t) = skeleton t.
Proof.
  intros H. unfold skeleton. induction t as [|[k' i] r IH]; simpl; [reflexivity|].
  destruct (String.eqb k k'); simpl.
  - destruct (H i) as [-> ->]. reflexivity.
  - now rewrite IH.
Qed.

Lemma skeleton_keys t t' : skeleton t = skeleton t' -> Dict.keys t = Dict.keys t'.
Proof.
  unfold skeleton, Dict.keys. revert t'.
  induction t as [|[k i] r IH]; intros [|[k' i'] r']; simpl; try discriminate.
  - reflexivity.
  - intros E. inversion E; subst. f_equal. now apply IH.
Qed.

Lemma skeleton_get t t' k i :
  skeleton t = skeleton t' -> Dict.get k t = Some i ->
  exists i', Dict.get k t' = Some i'
             /\ duration i' = duration i /\ dependencies i' = dependencies i.
Proof.
  unfold skeleton. revert t'.
  induction t as [|[k1 i1] r IH]; intros [|[k2 i2] r']; simpl; try discriminate.
  intros E. inversion E; subst.
  destruct (String.eqb k k2).
  - intros Q. inversion Q; subst. eauto.
  - now apply IH.
Qed.

Lemma skeleton_deps_of t t' T :
  skeleton t = skeleton t' -> deps_of t T = deps_of t' T.
Proof.
  intros E. unfold deps_of. destruct (Dict.get T t) as [i|] eqn:G.
  - destruct (skeleton_get _ _ _ _ E G) as [i' [-> [_ ->]]]. reflexivity.
  - destruct (Dict.get T t') as [i'|] eqn:G'; [|reflexivity].
    destruct (skeleton_get _ _ _ _ (eq_sym E) G') as [i [Q _]]. congruence.
Qed.

Lemma skeleton_duration t t' T :
  skeleton t = skeleton t' -> field duration t T = field duration t' T.
Proof.
  intros E. unfold field. destruct (Dict.get T t) as [i|] eqn:G.
  - destruct (skeleton_get _ _ _ _ E G) as [i' [-> [-> _]]]. reflexivity.
  - destruct (Dict.get T t') as [i'|] eqn:G'; [|reflexivity].
    destruct (skeleton_get _ _ _ _ (eq_sym E) G') as [i [Q _]]. congruence.
Qed.

Lemma skeleton_fold_edges t t' g :
  skeleton t = skeleton t' ->
  fold_left (fun g '(task_id, task_info) =>
               add_edges_of g task_id (dependencies task_info)) t g
  = fold_left (fun g '(task_id, task_info) =>
               add_edges_of g task_id (dependencies task_info)) t' g.
Proof.
  unfold skeleton. revert t' g.
  induction t as [|[k i] r IH]; intros [|[k' i'] r'] g; simpl; try discriminate.
  - reflexivity.
  - intros E. inversion E; subst. rewrite H2. now apply IH.
Qed.

Lemma skeleton_graph_of t t' : skeleton t = skeleton t' -> graph_of t = graph_of t'.
Proof.
  intros E. unfold graph_of. rewrite (skeleton_keys _ _ E).
  now apply skeleton_fold_edges.
Qed.

Lemma skeleton_first_missing t t' its its' :
  skeleton t = skeleton t' -> skeleton its = skeleton its' ->
  first_missing t its = first_missing t' its'.
Proof.
  intros E. unfold skeleton at 1 2. revert its'.
  assert (M : forall k, Dict.mem k t = Dict.mem k t').
  { intros k. pose proof (skeleton_keys _ _ E) as K.
    destruct (Dict.mem k t') eqn:Q.
    - apply mem_keys. rewrite K. now apply mem_keys.
    - apply mem_false_keys. rewrite K. now apply mem_false_keys. }
  induction its as [|[k i] r IH]; intros [|[k' i'] r']; simpl; try discriminate.
  - reflexivity.
  - intros Q. inversion Q; subst. rewrite H2.
    assert (F : forall l, find (fun dep => negb (Dict.mem dep t)) l
                          = find (fun dep => negb (Dict.mem dep t')) l).
    { induction l as [|a l IHl]; simpl; [reflexivity|]. now rewrite M, IHl. }
    rewrite F.
    destruct (find _ (dependencies i')); [reflexivity | now apply IH].
Qed.

Lemma closed_deps_of t T D :
  closed t -> In D (deps_of t T) -> In D (Dict.keys t).
Proof.
  intros C. unfold deps_of. destruct (Dict.get T t) as [i|] eqn:G; [|contradiction].
  intros I. eapply C; [apply get_In; exact G | exact I].
Qed.

Lemma depends_on_deps_of t T D : depends_on t T D <-> In D (deps_of t T).
Proof.
  unfold depends_on, deps_of. split.
  - intros [i [-> I]]. exact I.
  - destruct (Dict.get T t) as [i|]; [eauto | contradiction].
Qed.

Lemma field_modify f F t k x :
  field f (Dict.modify k F t) x
  = if String.eqb x k
    then match Dict.get x t with Some i => f (F i) | None => 0 end
    else field f t x.
Proof.
  unfold field. rewrite get_modify.
  destruct (String.eqb x k); [|reflexivity].
  now destruct (Dict.get x t).
Qed.

(** ** Loops *)

Lemma for_each_app {X} (l1 l2 : list X) body s :
  for_each (l1 ++ l2) body s
  = match for_each l1 body s with
    | Returns _ s' => for_each l2 body s'
    | Raises e s' => Raises e s'
    end.
Proof.
  revert s. induction l1 as [|x r IH]; intros s; simpl; [reflexivity|].
  unfold bind. destruct (body x s) as [[] s'|e s']; [apply IH | reflexivity].
Qed.

Lemma fold_left_ext_in {A B} (f g : A -> B -> A) (l : list B) (a : A) :
  (forall x b, In b l -> f x b = g x b) -> fold_left f l a = fold_left g l a.
Proof.
  revert a. induction l as [|b r IH]; intros a H; simpl; [reflexivity|].
  rewrite H by now left. apply IH. intros x b' I. apply H. now right.
Qed.

Lemma fold_m_lookup {A} (step : A -> task_info -> A) (l : list string) (a : A) s :
  (forall x, In x l -> In x (Dict.keys (tasks s))) ->
  fold_m (fun acc k => i <- tasks_get k ;; ret (step acc i)) l a s
  = Returns
      (fold_left (fun acc k =>
                    match Dict.get k (tasks s) with
                    | Some i => step acc i
                    | None => acc
                    end) l a) s.
Proof.
  revert a. induction l as [|k r IH]; intros a H; simpl; [reflexivity|].
  unfold bind at 1. unfold bind at 1. unfold tasks_get at 1.
  destruct (keys_get k (tasks s) (H k (or_introl eq_refl))) as [i G].
  rewrite G. unfold ret at 1. apply IH. intros x I. apply H. now right.
Qed.

(** ** Forward pass *)

Lemma fold_max_field t l a :
  (forall x, In x l -> In x (Dict.keys t)) ->
  fold_left (fun acc k =>
               match Dict.get k t with
               | Some i => Z.max acc (eft i)
               | None => acc
               end) l a
  = fold_left (fun m D => Z.max m (field eft t D)) l a.
Proof.
  intros H. apply fold_left_ext_in. intros x b I. unfold field.
  destruct (keys_get b t (H b I)) as [i ->]. reflexivity.
Qed.

Lemma earliest_body_returns s v i :
  Dict.get v (tasks s) = Some i ->
  (forall D, In D (dependencies i) -> In D (Dict.keys (tasks s))) ->
  earliest_body v s
  = Returns tt
      (with_tasks
         (Dict.modify v (fun i => set_eft (est i + duration i) i)
            (Dict.modify v
               (set_est (fold_left (fun m D => Z.max m (field eft (tasks s) D))
                                   (dependencies i) 0))
               (tasks s)))
         s).
Proof.
  intros G H. unfold earliest_body. unfold bind at 1. unfold tasks_get at 1.
  rewrite G. destruct (dependencies i) as [|d ds] eqn:Q.
  - reflexivity.
  - unfold bind at 1. unfold bind at 1.
    rewrite (fold_m_lookup (fun m j => Z.max m (eft j))) by exact H.
    rewrite fold_max_field by exact H. reflexivity.
Qed.

Lemma forward_loop g l :
  topo_prefix (gedge g) l ->
  forall s,
    (forall T D, In D (deps_of (tasks s) T) -> In D (Dict.keys (tasks s))) ->
    (forall T D, In D (deps_of (tasks s) T) -> gedge g D T) ->
    (forall x, In x l -> In x (Dict.keys (tasks s))) ->
    exists t',
      for_each l earliest_body s = Returns tt (with_tasks t' s)
      /\ skeleton t' = skeleton (tasks s)
      /\ (forall T, In T l -> forward_eq t' T)
      /\ (forall T, ~ In T l -> Dict.get T t' = Dict.get T (tasks s)).
Proof.
  induction 1 as [|l v T IH Hv Hp]; intros s C HE HK.
  - exists (tasks s). split; [destruct s; reflexivity|].
    split; [reflexivity|]. split; [intros ? [] | reflexivity].
  - destruct (IH s C HE) as [t1 [R1 [S1 [F1 U1]]]].
    { intros x I. apply HK, in_or_app. now left. }
    rewrite for_each_app, R1. simpl. unfold bind at 1.
    assert (Kv : In v (Dict.keys t1)).
    { rewrite (skeleton_keys _ _ S1). apply HK, in_or_app. right. now left. }
    destruct (keys_get _ _ Kv) as [i Gi].
    assert (Di : dependencies i = deps_of (tasks s) v).
    { rewrite <- (skeleton_deps_of _ _ v S1). unfold deps_of. now rewrite Gi. }
    rewrite (earliest_body_returns (with_tasks t1 s) v i Gi).
    2:{ intros D I. simpl. rewrite (skeleton_keys _ _ S1).
        apply (C v). now rewrite <- Di. }
    simpl. unfold ret.
    set (m := fold_left (fun m D => Z.max m (field eft t1 D)) (dependencies i) 0).
    set (t2 := Dict.modify v _ (Dict.modify v (set_est m) t1)).
    assert (S2 : skeleton t2 = skeleton (tasks s)).
    { unfold t2. rewrite !skeleton_modify; [exact S1 | |]; intros j; split; reflexivity. }
    assert (G2 : forall x, x <> v -> Dict.get x t2 = Dict.get x t1).
    { intros x Hx. unfold t2. rewrite !get_modify.
      destruct (String.eqb_spec x v); [contradiction | reflexivity]. }
    assert (F2 : forall f x, x <> v -> field f t2 x = field f t1 x).
    { intros f x Hx. unfold field. now rewrite G2. }
    assert (Gv : Dict.get v t2 = Some (set_eft (m + duration i) (set_est m i))).
    { unfold t2. rewrite !get_modify, String.eqb_refl, Gi. reflexivity. }
    assert (Dl : forall D, In D (dependencies i) -> D <> v).
    { intros D I ->. apply Hv, Hp, HE. now rewrite <- Di. }
    exists t2. split; [reflexivity|]. split; [exact S2|]. split.
    + intros x I. apply in_app_or in I as [I|[<-|[]]].
      * assert (Hx : x <> v) by (intros ->; contradiction).
        destruct (F1 x I) as [E1 E2]. unfold forward_eq.
        rewrite !F2 by exact Hx.
        rewrite (skeleton_deps_of t2 t1) by congruence.
        split; [|exact E2]. rewrite E1. apply fold_left_ext_in.
        intros a D J. rewrite F2; [reflexivity|].
        intros ->. apply Hv.
        apply (topo_prefix_closed _ l v x T); [|exact I].
        apply HE. rewrite <- (skeleton_deps_of _ _ x S1). exact J.
      * unfold forward_eq, field at 1 3 4 5, deps_of. rewrite Gv. simpl.
        split; [|reflexivity]. unfold m. apply fold_left_ext_in.
        intros a D J. rewrite F2; [reflexivity | now apply Dl].
    + intros x N. rewrite G2; [apply U1|].
      * intros I. apply N, in_or_app. now left.
      * intros ->. apply N, in_or_app. right. now left.
Qed.

(** ** Backward pass *)

Lemma seed_loop l s :
  exists t',
    for_each l seed_body s = Returns tt (with_tasks t' s)
    /\ skeleton t' = skeleton (tasks s)
    /\ (forall T, In T l -> In T (Dict.keys (tasks s)) ->
                  field lft t' T = project_duration s)
    /\ (forall T, ~ In T l -> Dict.get T t' = Dict.get T (tasks s))
    /\ (forall T, field est t' T = field est (tasks s) T
                  /\ field eft t' T = field eft (tasks s) T).
Proof.
  revert s. induction l as [|k r IH]; intros s.
  - exists (tasks s). split; [destruct s; reflexivity|].
    split; [reflexivity|]. split; [intros ? [] | auto].
  - simpl. unfold bind at 1. unfold seed_body at 1, tasks_modify.
    set (t1 := Dict.modify k (set_lft (project_duration s)) (tasks s)).
    destruct (IH (with_tasks t1 s)) as [t' [R [S [L [U F]]]]]. simpl in *.
    assert (S1 : skeleton t1 = skeleton (tasks s)).
    { unfold t1. apply skeleton_modify. intros i. split; reflexivity. }
    exists t'. split; [exact R|]. split; [congruence|]. split; [|split].
    + intros T I K. destruct (in_dec string_dec T r) as [J|J].
      * apply L; [exact J|]. unfold t1. now rewrite keys_modify.
      * destruct I as [->|I]; [|contradiction].
        unfold field. rewrite (U T J). unfold t1.
        rewrite get_modify, String.eqb_refl.
        destruct (keys_get _ _ K) as [i ->]. reflexivity.
    + intros T N. rewrite U by tauto. unfold t1. rewrite get_modify.
      destruct (String.eqb_spec T k) as [->|]; [|reflexivity].
      exfalso. apply N. now left.
    + intros T. destruct (F T) as [F1 F2]. rewrite F1, F2.
      unfold t1. rewrite !field_modify.
      destruct (String.eqb T k); [|auto].
      unfold field. destruct (Dict.get T (tasks s)); auto.
Qed.

Lemma fold_min_field t l a :
  (forall x, In x l -> In x (Dict.keys t)) ->
  fold_left (fun acc k =>
               match Dict.get k t with
               | Some i => min_inf acc (lst i)
               | None => acc
               end) l a
  = fold_left (fun m S => min_inf m (field lst t S)) l a.
Proof.
  intros H. apply fold_left_ext_in. intros x b I. unfold field.
  destruct (keys_get b t (H b I)) as [i ->]. reflexivity.
Qed.

Lemma latest_body_returns s v :
  In v (Dict.keys (tasks s)) ->
  (forall S, In S (DiGraph.successors (graph s) v) -> In S (Dict.keys (tasks s))) ->
  latest_body v s
  = Returns tt
      (with_tasks
         (Dict.modify v (fun i => set_float (lst i - est i) i)
            (Dict.modify v (fun i => set_lst (lft i - duration i) i)
               (match fold_left (fun m S => min_inf m (field lst (tasks s) S))
                                (DiGraph.successors (graph s) v) None with
                | Some m => Dict.modify v (set_lft m) (tasks s)
                | None => tasks s
                end)))
         s).
Proof.
  intros K H. unfold latest_body. unfold bind at 1. unfold tasks_get at 1.
  destruct (keys_get _ _ K) as [i ->]. unfold bind at 1.
  rewrite <- fold_min_field by exact H.
  destruct (DiGraph.successors (graph s) v) as [|d ds] eqn:Q.
  - destruct s; reflexivity.
  - unfold bind at 1. unfold bind at 1.
    rewrite (fold_m_lookup (fun m j => min_inf m (lst j))) by exact H.
    destruct (fold_left _ (d :: ds) None); [reflexivity|].
    destruct s; reflexivity.
Qed.

Lemma backward_loop g pd l :
  topo_prefix (gedge g) l ->
  forall s,
    graph s = g ->
    (forall x, In x l -> In x (Dict.keys (tasks s))) ->
    (forall T S, gedge g T S -> In S (Dict.keys (tasks s))) ->
    (forall T, In T l -> field lft (tasks s) T = pd) ->
    (forall T, In T (Dict.keys (tasks s)) -> ~ In T l ->
               backward_eq g pd (tasks s) T) ->
    exists t',
      for_each (rev l) latest_body s = Returns tt (with_tasks t' s)
      /\ skeleton t' = skeleton (tasks s)
      /\ (forall T, In T (Dict.keys (tasks s)) -> backward_eq g pd t' T)
      /\ (forall T, field est t' T = field est (tasks s) T
                    /\ field eft t' T = field eft (tasks s) T).
Proof.
  induction 1 as [|l v T IH Hv Hp]; intros s Hg HK HS Hseed HP.
  - exists (tasks s). split; [destruct s; reflexivity|].
    split; [reflexivity|]. split; [|auto].
    intros x I. apply HP; auto.
  - rewrite rev_app_distr. simpl. unfold bind at 1.
    assert (Kv : In v (Dict.keys (tasks s))) by (apply HK, in_or_app; right; now left).
    rewrite latest_body_returns; [| exact Kv | rewrite Hg; intros S I; eapply HS; exact I].
    rewrite Hg.
    set (m := fold_left (fun m S => min_inf m (field lst (tasks s) S))
                        (DiGraph.successors g v) None).
    set (t0 := match m with
               | Some m' => Dict.modify v (set_lft m') (tasks s)
               | None => tasks s
               end).
    set (t1 := Dict.modify v _ (Dict.modify v _ t0)).
    assert (S0 : skeleton t0 = skeleton (tasks s)).
    { unfold t0. destruct m; [|reflexivity].
      apply skeleton_modify. intros j; split; reflexivity. }
    assert (S1 : skeleton t1 = skeleton (tasks s)).
    { unfold t1. rewrite !skeleton_modify; [exact S0 | |]; intros j; split; reflexivity. }
    assert (G0 : forall x, x <> v -> Dict.get x t0 = Dict.get x (tasks s)).
    { intros x Hx. unfold t0. destruct m; [|reflexivity]. rewrite get_modify.
      destruct (String.eqb_spec x v); [contradiction | reflexivity]. }
    assert (G1 : forall x, x <> v -> Dict.get x t1 = Dict.get x (tasks s)).
    { intros x Hx. unfold t1. rewrite !get_modify.
      destruct (String.eqb_spec x v); [contradiction | now apply G0]. }
    assert (F1 : forall f x, x <> v -> field f t1 x = field f (tasks s) x).
    { intros f x Hx. unfold field. now rewrite G1. }
    assert (Sv : forall S, gedge g v S -> S <> v).
    { intros S He ->. apply Hv, Hp, He. }
    assert (Sl : forall S, gedge g v S -> ~ In S l).
    { intros S He I. apply Hv. eapply topo_prefix_closed; eauto. }
    destruct (keys_get _ _ Kv) as [i Gi].
    assert (Gv0 : Dict.get v t0
                  = Some (match m with Some m' => set_lft m' i | None => i end)).
    { unfold t0. destruct m; [|exact Gi].
      now rewrite get_modify, String.eqb_refl, Gi. }
    assert (Lv : field lft (tasks s) v = pd).
    { apply Hseed, in_or_app. right. now left. }
    destruct (IH (with_tasks t1 s)) as [t' [R [S' [B' F']]]]; simpl.
    + exact Hg.
    + intros x I. rewrite (skeleton_keys _ _ S1). apply HK, in_or_app. now left.
    + intros a b He. rewrite (skeleton_keys _ _ S1). eapply HS; eauto.
    + intros x I. rewrite F1; [apply Hseed, in_or_app; now left|].
      intros ->. contradiction.
    + intros x Kx Nx. rewrite (skeleton_keys _ _ S1) in Kx.
      assert (Fs : fold_left (fun m S => min_inf m (field lst t1 S))
                             (DiGraph.successors g x) None
                   = fold_left (fun m S => min_inf m (field lst (tasks s) S))
                               (DiGraph.successors g x) None).
      { apply fold_left_ext_in. intros a S I. rewrite F1; [reflexivity|].
        intros ->. apply Nx, Hp, I. }
      destruct (string_dec x v) as [->|Hx].
      * unfold backward_eq. rewrite Fs. fold m.
        unfold field at 1 2 3 4 5 6 7. unfold t1.
        rewrite !get_modify, String.eqb_refl, Gv0. simpl.
        unfold field in Lv. rewrite Gi in Lv.
        destruct m; simpl; repeat split; auto.
      * unfold backward_eq. rewrite Fs, !F1 by exact Hx.
        apply HP; [exact Kx|]. intros I.
        apply in_app_or in I as [I|[->|[]]]; [contradiction | congruence].
    + simpl in S'. exists t'. split; [exact R|]. split; [congruence|]. split.
      * intros x Kx. apply B'. simpl. now rewrite (skeleton_keys _ _ S1).
      * intros x. destruct (F' x) as [E1 E2]. simpl in E1, E2. rewrite E1, E2.
        unfold t1. rewrite !field_modify.
        destruct (String.eqb_spec x v) as [->|Hx].
        -- rewrite !get_modify, String.eqb_refl, Gv0. unfold field. rewrite Gi.
           destruct m; simpl; auto.
        -- unfold field. rewrite G0 by exact Hx. auto.
Qed.

(** ** Breadth-first traversal *)

Lemma successors_not_node g x :
  ~ In x (DiGraph.nodes g) -> DiGraph.successors g x = [].
Proof.
  intros H. unfold DiGraph.successors.
  apply get_None in H. unfold DiGraph.nodes in H. now rewrite H.
Qed.

Lemma mem_list_cons n x l :
  mem_list n (x :: l) = (String.eqb n x || mem_list n l)%bool.
Proof. reflexivity. Qed.

Lemma unvisited_sum_mono (f : string -> nat) nodes x visited :
  (list_sum (map f (filter (fun n => negb (mem_list n (x :: visited))) nodes))
   <= list_sum (map f (filter (fun n => negb (mem_list n visited)) nodes)))%nat.
Proof.
  induction nodes as [|n r IH]; cbn [filter map list_sum]; [lia|].
  rewrite mem_list_cons.
  set (A := filter _ r) in *. set (B := filter _ r) in *.
  destruct (String.eqb n x); destruct (mem_list n visited); simpl; lia.
Qed.

Lemma unvisited_sum_visit (f : string -> nat) nodes x visited :
  In x nodes -> ~ In x visited ->
  (f x + list_sum (map f (filter (fun n => negb (mem_list n (x :: visited))) nodes))
   <= list_sum (map f (filter (fun n => negb (mem_list n visited)) nodes)))%nat.
Proof.
  intros I N. induction nodes as [|n r IH]; [contradiction|].
  pose proof (unvisited_sum_mono f r x visited) as M.
  cbn [filter map list_sum]. rewrite mem_list_cons.
  set (A := filter _ r) in *. set (B := filter _ r) in *.
  destruct (String.eqb_spec n x) as [->|Hn].
  - apply mem_list_false in N. rewrite N. simpl. lia.
  - destruct I as [I|I]; [contradiction|]. specialize (IH I).
    destruct (mem_list n visited); simpl; lia.
Qed.

Lemma bfs_measure_seen sub x queue visited :
  bfs_measure sub (x :: queue) visited = S (bfs_measure sub queue visited).
Proof. reflexivity. Qed.

Lemma bfs_measure_visit sub x queue visited :
  ~ In x visited ->
  (S (bfs_measure sub
        (queue ++ filter (fun y => negb (mem_list y (x :: visited)))
                         (DiGraph.successors sub x))
        (x :: visited))
   <= bfs_measure sub (x :: queue) visited)%nat.
Proof.
  intros N. unfold bfs_measure. rewrite length_app. simpl List.length.
  pose proof (filter_length_le (fun y => negb (mem_list y (x :: visited)))
                               (DiGraph.successors sub x)) as L.
  destruct (in_dec string_dec x (DiGraph.nodes sub)) as [I|I].
  - pose proof (unvisited_sum_visit
                  (fun n => List.length (DiGraph.successors sub n)) _ x visited I N).
    simpl in *. lia.
  - pose proof (unvisited_sum_mono
                  (fun n => List.length (DiGraph.successors sub n))
                  (DiGraph.nodes sub) x visited).
    rewrite (successors_not_node _ _ I) in *. simpl in *. lia.
Qed.

(** with fuel for the work left, the loop empties the queue, and what it
    appends to the path is the breadth-first order *)
Lemma bfs_terminates sub fuel :
  forall queue visited path,
    (bfs_measure sub queue visited <= fuel)%nat ->
    exists p,
      bfs fuel sub queue visited path = ([], path ++ p)
      /\ bfs_order (DiGraph.successors sub) queue visited p.
Proof.
  induction fuel as [|fuel IH]; intros queue visited path L.
  - destruct queue as [|x q]; [|rewrite bfs_measure_seen in L; lia].
    exists []. rewrite app_nil_r. split; [reflexivity | constructor].
  - destruct queue as [|x q].
    + exists []. rewrite app_nil_r. split; [reflexivity | constructor].
    + cbn [bfs]. destruct (mem_list x visited) eqn:V.
      * rewrite bfs_measure_seen in L.
        destruct (IH q visited path) as [p [R O]]; [lia|].
        exists p. split; [exact R|]. apply bfs_seen; [|exact O].
        now apply mem_list_In.
      * apply mem_list_false in V.
        pose proof (bfs_measure_visit sub x q visited V) as M.
        destruct (IH (q ++ filter (fun y => negb (mem_list y (x :: visited)))
                                  (DiGraph.successors sub x))
                     (x :: visited) (path ++ [x])) as [p [R O]]; [lia|].
        exists (x :: p). split.
        -- rewrite R. now rewrite <- app_assoc.
        -- now apply bfs_new.
Qed.


(** the traversal only looks at the nodes it reaches *)
Lemma bfs_order_ext (C : string -> Prop) succ1 succ2 queue visited p :
  (forall x, C x -> succ1 x = succ2 x) ->
  (forall x y, C x -> In y (succ1 x) -> C y) ->
  bfs_order succ1 queue visited p ->
  (forall x, In x queue -> C x) ->
  bfs_order succ2 queue visited p.
Proof.
  intros E K. induction 1 as [vis | x q vis p I O IH | x q vis p N O IH]; intros Q.
  - constructor.
  - apply bfs_seen; [exact I|]. apply IH. intros y J. apply Q. now right.
  - apply bfs_new; [exact N|]. rewrite <- E by (apply Q; now left).
    apply IH. intros y J. apply in_app_or in J as [J|J].
    + apply Q. now right.
    + apply filter_In in J as [J _]. apply K with x; [apply Q; now left | exact J].
Qed.

(** everything the traversal appends comes from the queue or from an
    adjacency list, and is new *)
Lemma bfs_order_in (C : string -> Prop) succ queue visited p :
  (forall x y, C x -> In y (succ x) -> C y) ->
  bfs_order succ queue visited p ->
  (forall x, In x queue -> C x) ->
  forall x, In x p -> C x.
Proof.
  intros K. induction 1 as [vis | x q vis p I O IH | x q vis p N O IH]; intros Q y J.
  - contradiction.
  - apply IH; [|exact J]. intros z Z. apply Q. now right.
  - destruct J as [<-|J]; [apply Q; now left|].
    apply IH; [|exact J]. intros z Z. apply in_app_or in Z as [Z|Z].
    + apply Q. now right.
    + apply filter_In in Z as [Z _]. apply K with x; [apply Q; now left | exact Z].
Qed.

(** ** The passes on a validated registry *)

Lemma first_missing_None reg its :
  first_missing reg its = None ->
  forall T i D, In (T, i) its -> In D (dependencies i) -> In D (Dict.keys reg).
Proof.
  induction its as [|[k j] r IH]; simpl; [intros _ ? ? ? []|].
  destruct (find _ (dependencies j)) eqn:F; [discriminate|].
  intros Q T i D [E|I] J.
  - inversion E; subst. apply mem_keys.
    pose proof (find_none _ _ F D J) as N. simpl in N.
    now destruct (Dict.mem D reg).
  - eapply IH; eauto.
Qed.

Lemma first_missing_Some reg its T D :
  first_missing reg its = Some (T, D) ->
  exists i, In (T, i) its /\ In D (dependencies i) /\ Dict.mem D reg = false.
Proof.
  induction its as [|[k j] r IH]; simpl; [discriminate|].
  destruct (find _ (dependencies j)) eqn:F.
  - intros Q. inversion Q; subst. apply find_some in F as [I N].
    exists j. split; [now left|]. split; [exact I|].
    now destruct (Dict.mem D reg).
  - intros Q. destruct (IH Q) as [i [I H]]. exists i. split; [now right | exact H].
Qed.

Lemma gedge_graph_of t D T :
  NoDup (Dict.keys t) ->
  gedge (graph_of t) D T <-> In D (deps_of t T).
Proof.
  intros N. unfold gedge. rewrite successors_graph_of by exact N.
  rewrite in_successors_of by exact N. apply depends_on_deps_of.
Qed.

Lemma deps_of_key t T D : In D (deps_of t T) -> In T (Dict.keys t).
Proof.
  unfold deps_of. destruct (Dict.get T t) eqn:G; [|contradiction].
  intros _. eapply get_Some_keys; eauto.
Qed.

Lemma forward_eq_transfer t t' T :
  skeleton t' = skeleton t ->
  (forall x, field est t' x = field est t x /\ field eft t' x = field eft t x) ->
  forward_eq t T -> forward_eq t' T.
Proof.
  intros S F [E1 E2]. unfold forward_eq.
  destruct (F T) as [-> ->]. rewrite (skeleton_deps_of _ _ T S).
  rewrite (skeleton_duration _ _ T S). split; [|exact E2].
  rewrite E1. apply fold_left_ext_in. intros a D _. now destruct (F D) as [_ ->].
Qed.


Lemma valid_closed t : valid_registry t -> closed t.
Proof.
  intros [N [F _]] T i D I J. eapply first_missing_None; eauto.
Qed.

Lemma valid_topological t :
  valid_registry t ->
  exists order,
    topological_sort (graph_of t) = (order, true)
    /\ topo_prefix (gedge (graph_of t)) order
    /\ (forall x, In x order <-> In x (Dict.keys t)).
Proof.
  intros V. pose proof (valid_closed t V) as C. destruct V as [N [F Cy]].
  pose proof (nodes_graph_of t N C) as K.
  destruct (topological_sort (graph_of t)) as [order b] eqn:Q.
  assert (Ng : NoDup (DiGraph.nodes (graph_of t))) by now rewrite K.
  destruct (topological_sort_sound _ _ _ Ng Q) as [T [I1 I2]].
  unfold find_cycle in Cy. rewrite Q in Cy. simpl in Cy.
  destruct b; [|discriminate]. exists order. split; [reflexivity|].
  split; [exact T|]. intros x. rewrite <- K. split; auto.
Qed.

Lemma earliest_returns s :
  valid_registry (tasks s) ->
  graph s = graph_of (tasks s) ->
  exists t1,
    calculate_earliest_times s
    = Returns tt
        (with_project_duration
           (match Dict.values t1 with
            | [] => project_duration s
            | i :: r => max_of (eft i) (map eft r)
            end)
           (with_tasks t1 s))
    /\ skeleton t1 = skeleton (tasks s)
    /\ (forall T, In T (Dict.keys (tasks s)) -> forward_eq t1 T).
Proof.
  intros V Hg. destruct (valid_topological _ V) as [order [Q [T K]]].
  pose proof (valid_closed _ V) as C. destruct V as [N _].
  destruct (forward_loop _ _ T s) as [t1 [R [S [F _]]]].
  - intros x D. now apply closed_deps_of.
  - intros x D I. now apply gedge_graph_of.
  - intros x I. now apply K.
  - exists t1. split; [|split; [exact S|]].
    + unfold calculate_earliest_times. rewrite Hg, Q.
      unfold bind at 1. rewrite R. unfold bind at 1. unfold ret at 1.
      simpl. destruct (Dict.values t1); destruct s; reflexivity.
    + intros x I. apply F. now apply K.
Qed.

Lemma latest_returns s :
  valid_registry (tasks s) ->
  graph s = graph_of (tasks s) ->
  exists t3,
    calculate_latest_times s = Returns tt (with_tasks t3 s)
    /\ skeleton t3 = skeleton (tasks s)
    /\ (forall T, In T (Dict.keys (tasks s)) ->
                  backward_eq (graph s) (project_duration s) t3 T)
    /\ (forall T, field est t3 T = field est (tasks s) T
                  /\ field eft t3 T = field eft (tasks s) T).
Proof.
  intros V Hg. destruct (valid_topological _ V) as [order [Q [T K]]].
  destruct V as [N _].
  destruct (seed_loop (Dict.keys (tasks s)) s) as [t2 [R2 [S2 [L2 [_ F2]]]]].
  destruct (backward_loop _ (project_duration s) _ T (with_tasks t2 s))
    as [t3 [R3 [S3 [B3 F3]]]]; simpl.
  - exact Hg.
  - intros x I. rewrite (skeleton_keys _ _ S2). now apply K.
  - intros a b He. rewrite (skeleton_keys _ _ S2).
    apply gedge_graph_of in He; [|exact N]. eapply deps_of_key; eauto.
  - intros x I. apply L2; now apply K.
  - intros x I J. exfalso. apply J, K. now rewrite <- (skeleton_keys _ _ S2).
  - simpl in S3. exists t3. split; [|split; [congruence|split]].
    + unfold calculate_latest_times. unfold bind at 1. rewrite R2.
      simpl. rewrite Hg, Q. exact R3.
    + intros x I. rewrite Hg. apply B3. simpl. now rewrite (skeleton_keys _ _ S2).
    + intros x. destruct (F3 x) as [-> ->]. simpl. apply F2.
Qed.

Lemma valid_skeleton t t' :
  skeleton t = skeleton t' -> valid_registry t -> valid_registry t'.
Proof.
  intros S [N [F C]]. split; [|split].
  - now rewrite <- (skeleton_keys _ _ S).
  - now rewrite <- (skeleton_first_missing t t' t t' S S).
  - now rewrite <- (skeleton_graph_of _ _ S).
Qed.

Lemma map_values_field (f : task_info -> Z) t :
  NoDup (Dict.keys t) ->
  map f (Dict.values t) = map (field f t) (Dict.keys t).
Proof.
  unfold Dict.values, Dict.keys, field.
  induction t as [|[k i] r IH]; simpl; [reflexivity|].
  intros N. inversion N as [|? ? Hn Hr]; subst.
  rewrite String.eqb_refl. f_equal. rewrite IH by exact Hr.
  apply map_ext_in. intros a I.
  destruct (String.eqb_spec a k) as [->|]; [contradiction | reflexivity].
Qed.

Lemma values_nil_keys {V} (t : Dict.t V) : Dict.values t = [] <-> Dict.keys t = [].
Proof. destruct t; simpl; split; congruence. Qed.

Lemma project_duration_transfer t t' (pd : Z) :
  NoDup (Dict.keys t) ->
  skeleton t' = skeleton t ->
  (forall x, field eft t' x = field eft t x) ->
  match Dict.values t with [] => pd | i :: r => max_of (eft i) (map eft r) end
  = match Dict.values t' with [] => pd | i :: r => max_of (eft i) (map eft r) end.
Proof.
  intros N S F.
  assert (K : Dict.keys t' = Dict.keys t) by now apply skeleton_keys.
  assert (E : map eft (Dict.values t') = map eft (Dict.values t)).
  { rewrite !map_values_field; [| exact N | now rewrite K].
    rewrite K. apply map_ext. exact F. }
  destruct (Dict.values t) as [|i r]; destruct (Dict.values t') as [|i' r'];
    simpl in E; try discriminate; [reflexivity|].
  now inversion E.
Qed.

(** the pipeline on a validated registry: it returns, and the registry it
    leaves satisfies the equations of both passes *)
Lemma analyze_valid s :
  valid_registry (tasks s) ->
  exists t' pd',
    analyze s
    = Returns (true, EmptyString)
        (state_of (identify_critical_path
                     (mk_diagram t' (graph_of (tasks s)) (critical_path s) pd')))
    /\ skeleton t' = skeleton (tasks s)
    /\ (forall T, In T (Dict.keys (tasks s)) -> forward_eq t' T)
    /\ (forall T, In T (Dict.keys (tasks s)) ->
                  backward_eq (graph_of (tasks s)) pd' t' T)
    /\ pd' = match Dict.values t' with
             | [] => project_duration s
             | i :: r => max_of (eft i) (map eft r)
             end.
Proof.
  intros V.
  destruct (earliest_returns (with_graph (graph_of (tasks s)) s) V eq_refl)
    as [t1 [R1 [S1 F1]]]. simpl in R1, S1, F1.
  set (pd' := match Dict.values t1 with
              | [] => project_duration s
              | i :: r => max_of (eft i) (map eft r)
              end) in *.
  set (s2 := with_project_duration pd' (with_tasks t1 (with_graph (graph_of (tasks s)) s))) in *.
  assert (V2 : valid_registry (tasks s2)).
  { simpl. apply (valid_skeleton (tasks s)); [now symmetry | exact V]. }
  assert (G2 : graph s2 = graph_of (tasks s2)).
  { simpl. now apply skeleton_graph_of. }
  destruct (latest_returns s2 V2 G2) as [t3 [R3 [S3 [B3 F3]]]].
  simpl in S3, B3, F3.
  exists t3, pd'. split; [|split; [congruence|split; [|split]]].
  - unfold analyze, validate_tasks. destruct V as [N [F C]]. rewrite F, C.
    unfold bind at 1. unfold _build_graph at 1.
    unfold bind at 1. rewrite R1. fold s2.
    unfold bind at 1. rewrite R3.
    unfold identify_critical_path. reflexivity.
  - intros x I. apply (forward_eq_transfer t1); [congruence | exact F3 | now apply F1].
  - intros x I. apply B3. now rewrite (skeleton_keys _ _ S1).
  - unfold pd'. apply project_duration_transfer.
    + rewrite (skeleton_keys _ _ S1). now destruct V.
    + exact S3.
    + intros x. now destruct (F3 x).
Qed.

Lemma analyze_invalid s :
  NoDup (Dict.keys (tasks s)) ->
  ~ valid_registry (tasks s) ->
  exists msg, analyze s = Returns (false, msg) s.
Proof.
  intros N H. unfold analyze, validate_tasks.
  destruct (first_missing (tasks s) (tasks s)) as [[T D]|] eqn:F; [eauto|].
  destruct (find_cycle (graph_of (tasks s))) eqn:C; [eauto|].
  exfalso. apply H. now repeat split.
Qed.

(** ** Projects *)

Lemma valid_registry_dec t :
  NoDup (Dict.keys t) -> valid_registry t \/ ~ valid_registry t.
Proof.
  intros N. unfold valid_registry.
  destruct (first_missing t t) eqn:F; [right; intros [_ [H _]]; discriminate|].
  destruct (find_cycle (graph_of t)) eqn:C; [right; intros [_ [_ H]]; discriminate|].
  left. auto.
Qed.

Lemma skeleton_nil t t' : skeleton t' = skeleton t -> t = [] -> t' = [].
Proof. intros S ->. destruct t'; [reflexivity | discriminate]. Qed.

Lemma identify_fields s :
  tasks (state_of (identify_critical_path s)) = tasks s
  /\ graph (state_of (identify_critical_path s)) = graph s
  /\ project_duration (state_of (identify_critical_path s)) = project_duration s.
Proof. repeat split. Qed.

Lemma exec_well_formed d c : well_formed d -> well_formed (exec d c).
Proof.
  intros [N E]. destruct c as [k dur deps|]; simpl.
  - split; simpl.
    + now apply NoDup_keys_set.
    + intros Q. destruct (tasks d) as [|[k' v'] r]; simpl in Q; [discriminate|].
      destruct (String.eqb k k'); discriminate.
  - destruct (valid_registry_dec _ N) as [V|V].
    + destruct (analyze_valid d V) as [t' [pd' [R [S [_ [_ P]]]]]].
      rewrite R. split; simpl.
      * now rewrite (skeleton_keys _ _ S).
      * intros ->. assert (Q : tasks d = []).
        { destruct (tasks d); [reflexivity | discriminate]. }
        destruct (E Q) as [E1 E2]. simpl in P. split; [congruence | reflexivity].
    + destruct (analyze_invalid d N V) as [msg R]. rewrite R. now split.
Qed.

Lemma run_well_formed cs : well_formed (run cs).
Proof.
  unfold run.
  assert (H : well_formed __init__) by (split; [constructor | auto]).
  revert H. generalize __init__ as d. induction cs as [|c r IH]; intros d H; simpl.
  - exact H.
  - apply IH. now apply exec_well_formed.
Qed.

(** [analyze] never raises, and what it returns is decided by validation *)
Lemma analyze_cases s :
  NoDup (Dict.keys (tasks s)) ->
  (valid_registry (tasks s) /\ exists d', analyze s = Returns (true, EmptyString) d')
  \/ (~ valid_registry (tasks s) /\ exists msg, analyze s = Returns (false, msg) s).
Proof.
  intros N. destruct (valid_registry_dec _ N) as [V|V].
  - left. split; [exact V|].
    destruct (analyze_valid s V) as [t' [pd' [R _]]]. eauto.
  - right. split; [exact V | now apply analyze_invalid].
Qed.

Lemma analyze_true_valid s msg d' :
  NoDup (Dict.keys (tasks s)) ->
  analyze s = Returns (true, msg) d' -> valid_registry (tasks s).
Proof.
  intros N R. destruct (analyze_cases s N) as [[V _]|[_ [m Q]]]; [exact V|].
  rewrite Q in R. discriminate.
Qed.

(** the state after a successful analysis *)
Lemma analyze_success s msg d' :
  NoDup (Dict.keys (tasks s)) ->
  analyze s = Returns (true, msg) d' ->
  valid_registry (tasks s)
  /\ skeleton (tasks d') = skeleton (tasks s)
  /\ graph d' = graph_of (tasks d')
  /\ (forall T, In T (Dict.keys (tasks d')) -> forward_eq (tasks d') T)
  /\ (forall T, In T (Dict.keys (tasks d')) ->
                backward_eq (graph d') (project_duration d') (tasks d') T)
  /\ project_duration d'
     = match Dict.values (tasks d') with
       | [] => project_duration s
       | i :: r => max_of (eft i) (map eft r)
       end
  /\ d' = state_of (identify_critical_path d').
Proof.
  intros N R. pose proof (analyze_true_valid _ _ _ N R) as V.
  destruct (analyze_valid s V) as [t' [pd' [R' [S [F [B P]]]]]].
  rewrite R' in R. inversion R; subst d'. clear R. simpl.
  pose proof (skeleton_keys _ _ S) as K.
  split; [exact V|]. split; [exact S|].
  split; [symmetry; now apply skeleton_graph_of|].
  split; [intros T I; apply F; now rewrite <- K|].
  split; [intros T I; apply B; now rewrite <- K|].
  split; [exact P | reflexivity].
Qed.

(** ** Maxima and minima *)

Lemma fold_max_bounds (f : string -> Z) l a :
  let m := fold_left (fun m D => Z.max m (f D)) l a in
  a <= m
  /\ (forall D, In D l -> f D <= m)
  /\ (m = a \/ In m (map f l)).
Proof.
  revert a. induction l as [|d r IH]; intros a; simpl.
  - repeat split; [lia | intros ? [] | now left].
  - destruct (IH (Z.max a (f d))) as [H1 [H2 H3]]. split; [lia|]. split.
    + intros D [<-|I]; [lia | now apply H2].
    + destruct H3 as [H3|H3]; [|right; now right].
      destruct (Z.max_spec a (f d)) as [[_ E]|[_ E]];
        [right; left; lia | left; lia].
Qed.

Lemma fold_max_is_max (f : string -> Z) l :
  l <> [] ->
  (forall D, In D l -> 0 <= f D) ->
  is_max (fold_left (fun m D => Z.max m (f D)) l 0) (map f l).
Proof.
  intros Hl Hf. destruct (fold_max_bounds f l 0) as [H1 [H2 H3]].
  split.
  - destruct H3 as [H3|H3]; [|exact H3].
    destruct l as [|d r]; [congruence|].
    assert (E : f d = 0).
    { pose proof (H2 d (or_introl eq_refl)). pose proof (Hf d (or_introl eq_refl)). lia. }
    rewrite H3. left. exact E.
  - intros x I. apply in_map_iff in I as [D [<- I]]. now apply H2.
Qed.

Lemma max_of_is_max a l : is_max (max_of a l) (a :: l).
Proof.
  unfold max_of. revert a. induction l as [|b r IH]; intros a; simpl.
  - split; [now left | intros x [<-|[]]; lia].
  - destruct (IH (Z.max a b)) as [I U]. split.
    + destruct I as [I|I]; [|right; now right].
      destruct (Z.max_spec a b) as [[_ E]|[_ E]];
        [right; left; lia | left; lia].
    + intros x [<-|[<-|J]].
      * pose proof (U (Z.max a b) (or_introl eq_refl)). lia.
      * pose proof (U (Z.max a b) (or_introl eq_refl)). lia.
      * apply U. now right.
Qed.

Lemma fold_min_from (f : string -> Z) l a :
  exists m,
    fold_left (fun m S => min_inf m (f S)) l (Some a) = Some m
    /\ m <= a
    /\ (forall S, In S l -> m <= f S)
    /\ (m = a \/ In m (map f l)).
Proof.
  revert a. induction l as [|d r IH]; intros a; simpl.
  - exists a. repeat split; [lia | intros ? [] | now left].
  - destruct (IH (Z.min a (f d))) as [m [E [H1 [H2 H3]]]].
    exists m. split; [exact E|]. split; [lia|]. split.
    + intros S [<-|I]; [lia | now apply H2].
    + destruct H3 as [H3|H3]; [|right; now right].
      destruct (Z.min_spec a (f d)) as [[_ Q]|[_ Q]];
        [left; lia | right; left; lia].
Qed.

Lemma fold_min_nil (f : string -> Z) l :
  fold_left (fun m S => min_inf m (f S)) l None = None -> l = [].
Proof.
  destruct l as [|d r]; [reflexivity|]. simpl.
  destruct (fold_min_from f r (f d)) as [m [E _]]. rewrite E. discriminate.
Qed.

Lemma fold_min_is_min (f : string -> Z) l m :
  fold_left (fun m S => min_inf m (f S)) l None = Some m ->
  l <> [] /\ is_min m (map f l).
Proof.
  destruct l as [|d r]; simpl; [discriminate|].
  destruct (fold_min_from f r (f d)) as [m' [E [H1 [H2 H3]]]].
  rewrite E. intros Q. inversion Q; subst m'. split; [discriminate|]. split.
  - destruct H3 as [->|H3]; [now left | now right].
  - intros x [<-|I]; [exact H1|].
    apply in_map_iff in I as [S [<- I]]. now apply H2.
Qed.

Lemma field_get f t T i : Dict.get T t = Some i -> field f t T = f i.
Proof. unfold field. now intros ->. Qed.

Lemma deps_of_get t T i : Dict.get T t = Some i -> deps_of t T = dependencies i.
Proof. unfold deps_of. now intros ->. Qed.

(** after the forward pass no earliest start is negative *)
Lemma forward_est_nonneg t T : forward_eq t T -> 0 <= field est t T.
Proof.
  intros [E _]. rewrite E.
  now destruct (fold_max_bounds (field eft t) (deps_of t T) 0) as [H _].
Qed.

Lemma get_In_values {V} k (v : V) (t : Dict.t V) :
  Dict.get k t = Some v -> In v (Dict.values t).
Proof.
  intros G. apply get_In in G. unfold Dict.values.
  change v with (snd (k, v)). now apply in_map.
Qed.

Lemma positive_durations_field t T :
  positive_durations t = true -> In T (Dict.keys t) -> 0 < field duration t T.
Proof.
  unfold positive_durations. rewrite forallb_forall. intros H K.
  destruct (keys_get _ _ K) as [i G]. rewrite (field_get _ _ _ _ G).
  apply Z.ltb_lt, H. eapply get_In_values; eauto.
Qed.

(** * The claims *)





(** ** The critical subgraph, on the registry *)

Lemma in_critical_tasks_of t n :
  NoDup (Dict.keys t) ->
  In n (critical_tasks_of t) <-> is_critical t n = true.
Proof.
  intros N. unfold critical_tasks_of, is_critical. rewrite in_map_iff. split.
  - intros [[k i] [E I]]. simpl in E. subst k. apply filter_In in I as [I F].
    now rewrite (In_get _ _ _ N I).
  - destruct (Dict.get n t) as [i|] eqn:G; [|discriminate].
    intros F. exists (n, i). split; [reflexivity|].
    apply filter_In. split; [now apply get_In | exact F].
Qed.

Lemma mem_critical_tasks_of t n :
  NoDup (Dict.keys t) ->
  mem_list n (critical_tasks_of t) = is_critical t n.
Proof.
  intros N. destruct (is_critical t n) eqn:C.
  - now apply mem_list_In, in_critical_tasks_of.
  - apply mem_list_false. intros I. apply in_critical_tasks_of in I; congruence.
Qed.

Lemma successors_critical_subgraph t x :
  NoDup (Dict.keys t) ->
  DiGraph.successors (DiGraph.subgraph (graph_of t) (critical_tasks_of t)) x
  = if is_critical t x then critical_successors t x else [].
Proof.
  intros N. rewrite successors_subgraph, mem_critical_tasks_of by exact N.
  destruct (is_critical t x); [|reflexivity].
  rewrite successors_graph_of by exact N. unfold critical_successors.
  apply filter_ext. intros a. now apply mem_critical_tasks_of.
Qed.

Lemma gedge_critical_subgraph t u v :
  NoDup (Dict.keys t) ->
  gedge (DiGraph.subgraph (graph_of t) (critical_tasks_of t)) u v
  <-> is_critical t u = true /\ is_critical t v = true /\ In u (deps_of t v).
Proof.
  intros N. unfold gedge. rewrite successors_critical_subgraph by exact N.
  destruct (is_critical t u).
  - unfold critical_successors. rewrite filter_In, in_successors_of by exact N.
    rewrite depends_on_deps_of. tauto.
  - simpl. split; [tauto | intros [H _]; discriminate].
Qed.

Lemma in_degree_zero g v :
  Nat.eqb (DiGraph.in_degree g v) 0 = true <-> forall u, ~ gedge g u v.
Proof.
  unfold DiGraph.in_degree. rewrite Nat.eqb_eq, length_zero_iff_nil. split.
  - intros E u H. apply in_predecessors in H. rewrite E in H. contradiction.
  - intros H. destruct (DiGraph.predecessors g v) as [|u r] eqn:E; [reflexivity|].
    exfalso. apply (H u), in_predecessors. rewrite E. now left.
Qed.

Lemma filter_critical (f : string -> bool) (q : task_info -> bool)
    (l : Dict.t task_info) :
  (forall T i, In (T, i) l -> (float i =? 0) = true -> f T = q i) ->
  filter f (map fst (filter (fun '(_, i) => float i =? 0) l))
  = map fst (filter (fun '(_, i) => (float i =? 0) && q i) l).
Proof.
  induction l as [|[T i] r IH]; intros H; simpl; [reflexivity|].
  destruct (float i =? 0) eqn:F; simpl.
  - rewrite (H T i (or_introl eq_refl) F).
    destruct (q i); simpl; f_equal; apply IH; intros; apply H; auto; now right.
  - apply IH. intros. apply H; auto. now right.
Qed.

Lemma start_tasks_critical_seeds t :
  NoDup (Dict.keys t) ->
  start_tasks_of (DiGraph.subgraph (graph_of t) (critical_tasks_of t))
                 (critical_tasks_of t)
  = critical_seeds t.
Proof.
  intros N. unfold start_tasks_of, critical_seeds, critical_tasks_of.
  set (sub := DiGraph.subgraph _ _).
  assert (H : forall T i, In (T, i) t -> (float i =? 0) = true ->
                DiGraph.has_node sub T && Nat.eqb (DiGraph.in_degree sub T) 0
                = forallb (fun D => negb (is_critical t D)) (dependencies i)).
  { intros T i I F. pose proof (In_get _ _ _ N I) as G.
    assert (CT : is_critical t T = true) by (unfold is_critical; now rewrite G).
    assert (HN : DiGraph.has_node sub T = true).
    { apply mem_keys. fold (DiGraph.nodes sub). unfold sub.
      rewrite nodes_subgraph. apply filter_In. split.
      - apply keys_in_graph_of. eapply get_Some_keys; eauto.
      - fold (critical_tasks_of t). now rewrite mem_critical_tasks_of. }
    rewrite HN. cbn [andb].
    destruct (forallb _ (dependencies i)) eqn:Q.
    - apply in_degree_zero. intros u He.
      apply gedge_critical_subgraph in He as [Cu [_ J]]; [|exact N].
      rewrite (deps_of_get _ _ _ G) in J.
      rewrite forallb_forall in Q. specialize (Q u J). now rewrite Cu in Q.
    - destruct (Nat.eqb (DiGraph.in_degree sub T) 0) eqn:Z; [|reflexivity].
      exfalso. rewrite in_degree_zero in Z.
      assert (X : forallb (fun D => negb (is_critical t D)) (dependencies i) = true).
      { apply forallb_forall. intros D J.
        destruct (is_critical t D) eqn:CD; [|reflexivity].
        exfalso. apply (Z D). apply gedge_critical_subgraph; [exact N|].
        rewrite (deps_of_get _ _ _ G). auto. }
      congruence. }
  now apply filter_critical.
Qed.

Lemma bfs_fuel_measure sub start :
  bfs_fuel sub start = bfs_measure sub start [].
Proof.
  unfold bfs_fuel, bfs_measure. f_equal. f_equal. f_equal.
  induction (DiGraph.nodes sub) as [|n r IH]; simpl; [reflexivity | now f_equal].
Qed.

Lemma in_critical_seeds t x :
  NoDup (Dict.keys t) -> In x (critical_seeds t) -> is_critical t x = true.
Proof.
  intros N I. unfold critical_seeds in I. apply in_map_iff in I as [[k i] [E I]].
  simpl in E. subst k. apply filter_In in I as [I F].
  apply andb_true_iff in F as [F _].
  unfold is_critical. now rewrite (In_get _ _ _ N I).
Qed.

Lemma filter_critical_nil (q : task_info -> bool) (l : Dict.t task_info) :
  map fst (filter (fun '(_, i) => float i =? 0) l) = [] ->
  map fst (filter (fun '(_, i) => (float i =? 0) && q i) l) = [].
Proof.
  induction l as [|[k i] r IH]; simpl; [reflexivity|].
  destruct (float i =? 0); simpl; [discriminate | exact IH].
Qed.

Lemma critical_seeds_nil t :
  critical_tasks_of t = [] -> critical_seeds t = [].
Proof.
  unfold critical_tasks_of, critical_seeds.
  apply (filter_critical_nil
           (fun i => forallb (fun D => negb (is_critical t D)) (dependencies i))).
Qed.

(** what [identify_critical_path] stores is the breadth-first order of the
    critical subgraph read off the registry *)
Lemma identify_bfs_order s :
  NoDup (Dict.keys (tasks s)) ->
  graph s = graph_of (tasks s) ->
  bfs_order (critical_successors (tasks s)) (critical_seeds (tasks s)) []
            (critical_path (state_of (identify_critical_path s))).
Proof.
  intros N Hg. unfold identify_critical_path, state_of, with_critical_path.
  cbn [critical_path]. rewrite Hg.
  destruct (critical_tasks_of (tasks s)) as [|c cr] eqn:Ct.
  - rewrite (critical_seeds_nil _ Ct). constructor.
  - rewrite <- Ct. rewrite start_tasks_critical_seeds by exact N.
    destruct (critical_seeds (tasks s)) as [|a q] eqn:Cs; [constructor|].
    rewrite <- Cs.
    set (sub := DiGraph.subgraph (graph_of (tasks s)) (critical_tasks_of (tasks s))).
    destruct (bfs_terminates sub (bfs_fuel sub (critical_seeds (tasks s)))
                (critical_seeds (tasks s)) [] []) as [p [R O]].
    { rewrite bfs_fuel_measure. lia. }
    rewrite R. simpl.
    apply (bfs_order_ext (fun x => is_critical (tasks s) x = true)
                         (DiGraph.successors sub)); [| | exact O |].
    + intros x C. unfold sub. rewrite successors_critical_subgraph by exact N.
      now rewrite C.
    + intros x y C I. unfold sub in I.
      rewrite successors_critical_subgraph, C in I by exact N.
      unfold critical_successors in I. now apply filter_In in I as [_ I].
    + intros x I. now apply in_critical_seeds.
Qed.



(** ** Validation *)

Lemma path_ext (E E' : string -> string -> Prop) a b :
  (forall u v, E u v -> E' u v) -> path E a b -> path E' a b.
Proof.
  intros H. induction 1 as [u v He | u v w He P IH].
  - apply path_edge. auto.
  - apply path_step with v; auto.
Qed.

Lemma has_cycle_graph_of t :
  NoDup (Dict.keys t) ->
  has_cycle t <-> exists x, path (gedge (graph_of t)) x x.
Proof.
  intros N. unfold has_cycle. split; intros [x P]; exists x;
    eapply path_ext; try exact P; intros u v He; unfold dep_edge in *.
  - apply gedge_graph_of; [exact N|]. now apply depends_on_deps_of.
  - apply depends_on_deps_of. now apply gedge_graph_of in He.
Qed.

Lemma unknown_dependency_first_missing t :
  NoDup (Dict.keys t) ->
  (exists T D, unknown_dependency_in t T D) <-> first_missing t t <> None.
Proof.
  intros N. split.
  - intros [T [D [[i [G I]] M]]] F.
    pose proof (first_missing_None _ _ F T i D (get_In _ _ _ G) I) as K.
    apply mem_keys in K. congruence.
  - destruct (first_missing t t) as [[T D]|] eqn:F; [|congruence].
    intros _. apply first_missing_Some in F as [i [I [J M]]].
    exists T, D. split; [|exact M]. exists i. split; [now apply In_get | exact J].
Qed.

Lemma validate_tasks_cases s :
  NoDup (Dict.keys (tasks s)) ->
  (exists T D,
     unknown_dependency_in (tasks s) T D
     /\ validate_tasks s = Returns (false, unknown_dependency T D) s)
  \/ ((forall T D, ~ unknown_dependency_in (tasks s) T D)
      /\ has_cycle (tasks s)
      /\ validate_tasks s = Returns (false, circular_dependency) s)
  \/ ((forall T D, ~ unknown_dependency_in (tasks s) T D)
      /\ ~ has_cycle (tasks s)
      /\ validate_tasks s = Returns (true, EmptyString) s).
Proof.
  intros N. unfold validate_tasks.
  destruct (first_missing (tasks s) (tasks s)) as [[T D]|] eqn:F.
  - left. exists T, D. split; [|reflexivity].
    apply first_missing_Some in F as [i [I [J M]]].
    split; [|exact M]. exists i. split; [now apply In_get | exact J].
  - right.
    assert (U : forall T D, ~ unknown_dependency_in (tasks s) T D).
    { intros T D H.
      assert (X : first_missing (tasks s) (tasks s) <> None)
        by (apply unknown_dependency_first_missing; eauto).
      contradiction. }
    assert (C : closed (tasks s)).
    { intros T i D I J. eapply first_missing_None; eauto. }
    assert (Ng : NoDup (DiGraph.nodes (graph_of (tasks s))))
      by now rewrite nodes_graph_of.
    destruct (find_cycle (graph_of (tasks s))) eqn:Cy.
    + left. split; [exact U|]. split; [|reflexivity].
      apply has_cycle_graph_of; [exact N|]. now apply find_cycle_iff_cycle.
    + right. split; [exact U|]. split; [|reflexivity].
      intros H. apply has_cycle_graph_of in H; [|exact N].
      apply find_cycle_iff_cycle in H; [|exact Ng]. congruence.
Qed.




Lemma run_only_analyze (n : nat) : run (repeat Analyze n) = __init__.
Proof.
  unfold run. induction n as [|n IH]; [reflexivity | exact IH].
Qed.

(** C8.  On the empty project, where [add_task] was never called (whatever
    the number of earlier [analyze()] calls), [analyze()] succeeds, the
    project duration is [0] and the critical path is empty. *)
Theorem empty_project_analyze (n : nat) :
  exists d',
    analyze (run (repeat Analyze n)) = Returns (true, EmptyString) d'
    /\ project_duration d' = 0
    /\ critical_path d' = []
    /\ tasks d' = [].
Proof.
  rewrite run_only_analyze. exists __init__. repeat split.
Qed.

(** C9.  [add_task] returns for every identifier, duration and dependency
    list: no duplicate, non-positive duration or unknown dependency is
    rejected.  The entry of the identifier is the new one, at the place of
    the old one when there was one and at the end otherwise; the other
    entries and the rest of the object are unchanged. *)
Theorem add_task_always_succeeds (d : PERTDiagram) (task_id : string) (dur : Z)
    (deps : option (list string)) :
  exists d',
    add_task task_id dur deps d = Returns tt d'
    /\ Dict.get task_id (tasks d')
       = Some (mk_task dur (match deps with None => [] | Some l => l end) 0 0 0 0 0)
    /\ (forall k, k <> task_id -> Dict.get k (tasks d') = Dict.get k (tasks d))
    /\ Dict.keys (tasks d')
       = (if Dict.mem task_id (tasks d) then Dict.keys (tasks d)
          else Dict.keys (tasks d) ++ [task_id])
    /\ graph d' = graph d
    /\ critical_path d' = critical_path d
    /\ project_duration d' = project_duration d.
Proof.
  eexists. split; [reflexivity|]. simpl. split; [|split; [|split; [|auto]]].
  - now rewrite get_set, String.eqb_refl.
  - intros k Hk. rewrite get_set.
    destruct (String.eqb_spec k task_id); [contradiction | reflexivity].
  - apply keys_set.
Qed.

(** C10.  After [add_task(id, duration, dependencies)] the entry of [id] has
    earliest start, earliest finish, latest start, latest finish and slack
    equal to [0], whatever the object held before: adding again a task that
    was analyzed discards its timings without any new [analyze()]. *)
Theorem add_task_resets_timings (d : PERTDiagram) (task_id : string) (dur : Z)
    (deps : option (list string)) :
  exists i,
    Dict.get task_id (tasks (state_of (add_task task_id dur deps d))) = Some i
    /\ est i = 0 /\ eft i = 0 /\ lst i = 0 /\ lft i = 0 /\ float i = 0.
Proof.
  eexists. simpl. split; [now rewrite get_set, String.eqb_refl|].
  repeat split.
Qed.

(** an analyzed task added again: its earliest finish was [7] and is [0] *)
Example add_task_discards_timings :
  field eft (tasks (run (sample_chain ++ [Analyze]))) "B" = 7
  /\ field eft (tasks (run (sample_chain ++ [Analyze; AddTask "B" 4 (Some ["A"])]))) "B" = 0.
Proof. split; reflexivity. Qed.

(** ** Reasoning from the sinks back *)

Lemma topo_rev_ind (E : string -> string -> Prop) (P : list string -> Prop) l :
  topo_prefix E l ->
  P l ->
  (forall l' v,
     topo_prefix E l' -> ~ In v l' -> (forall u, E u v -> In u l') ->
     P (l' ++ [v]) -> P l') ->
  P [].
Proof.
  intros T H Step. induction T as [|l v T IH Hv Hp]; [exact H|].
  apply IH. now apply (Step l v).
Qed.

(** in a topological order a successor of the last node is not in the order *)
Lemma topo_successor_outside (E : string -> string -> Prop) l v S :
  topo_prefix E l -> ~ In v l -> (forall u, E u v -> In u l) ->
  E v S -> ~ In S (l ++ [v]).
Proof.
  intros T Hv Hp He I. apply in_app_or in I as [I|[->|[]]].
  - apply Hv. eapply topo_prefix_closed; eauto.
  - apply Hv, Hp, He.
Qed.

Lemma eft_le_project_duration t T :
  In T (Dict.keys t) ->
  field eft t T
  <= match Dict.values t with
     | [] => 0
     | i :: r => max_of (eft i) (map eft r)
     end.
Proof.
  intros K. destruct (keys_get _ _ K) as [i G].
  rewrite (field_get _ _ _ _ G). apply get_In_values in G.
  destruct (Dict.values t) as [|j r]; [contradiction|].
  destruct (max_of_is_max (eft j) (map eft r)) as [_ U].
  apply U. change (eft j :: map eft r) with (map eft (j :: r)). now apply in_map.
Qed.

(** whole-number durations: no slack is negative, whatever the sign of the
    durations *)
Lemma slack_nonneg t pd :
  valid_registry t ->
  (forall T, In T (Dict.keys t) -> forward_eq t T) ->
  (forall T, In T (Dict.keys t) -> backward_eq (graph_of t) pd t T) ->
  (forall T, In T (Dict.keys t) -> field eft t T <= pd) ->
  forall T, In T (Dict.keys t) -> field est t T <= field lst t T.
Proof.
  intros V F B Hpd.
  destruct (valid_topological _ V) as [order [_ [Tp K]]]. destruct V as [N _].
  assert (H : forall T, In T (Dict.keys t) -> ~ In T [] ->
                        field est t T <= field lst t T); [|intros T I; now apply H].
  apply (topo_rev_ind (gedge (graph_of t))
           (fun l => forall T, In T (Dict.keys t) -> ~ In T l ->
                               field est t T <= field lst t T) order Tp).
  - intros T I J. exfalso. apply J, K, I.
  - intros l v Tl Hv Hp P T I J.
    destruct (string_dec T v) as [->|Hne].
    2:{ apply P; [exact I|]. intros X. apply in_app_or in X as [X|[X|[]]]; congruence. }
    destruct (B v I) as [E1 [E2 _]]. destruct (F v I) as [_ E4].
    destruct (fold_left _ (DiGraph.successors (graph_of t) v) None) as [m|] eqn:Fm.
    + apply fold_min_is_min in Fm as [_ [Im _]].
      apply in_map_iff in Im as [S [Es Is]].
      assert (He : gedge (graph_of t) v S) by exact Is.
      assert (Dv : In v (deps_of t S)) by now apply gedge_graph_of in He.
      assert (Ks : In S (Dict.keys t)) by (eapply deps_of_key; eauto).
      pose proof (P S Ks (topo_successor_outside _ _ _ _ Tl Hv Hp He)) as Ps.
      destruct (F S Ks) as [E5 _].
      destruct (fold_max_bounds (field eft t) (deps_of t S) 0) as [_ [U _]].
      specialize (U v Dv). lia.
    + pose proof (Hpd v I). lia.
Qed.

(** ** The traversal reaches every critical task *)

(** whatever waits in the queue ends up visited, and the visited set is
    closed under the adjacency lists of what the traversal appended *)
Lemma bfs_order_closed succ queue visited p :
  bfs_order succ queue visited p ->
  (forall x, In x queue -> In x visited \/ In x p)
  /\ (forall z y, In z p -> In y (succ z) -> In y visited \/ In y p).
Proof.
  induction 1 as [vis | x q vis p I O [IH1 IH2] | x q vis p N O [IH1 IH2]].
  - split; [intros x [] | intros z y []].
  - split; [|exact IH2]. intros y [<-|J]; [now left | now apply IH1].
  - assert (Q : forall y, In y (x :: vis) \/ In y p -> In y vis \/ In y (x :: p)).
    { intros y [[<-|J]|J]; [right; now left | now left | right; now right]. }
    split.
    + intros y [<-|J]; [right; now left|].
      apply Q, IH1, in_or_app. now left.
    + intros z y [<-|J] Hy.
      * destruct (mem_list y (x :: vis)) eqn:M.
        -- apply mem_list_In in M. apply Q. now left.
        -- apply Q, IH1, in_or_app. right. apply filter_In. now rewrite M.
      * apply Q. now apply IH2 with z.
Qed.

Lemma in_critical_seeds_iff t T i :
  NoDup (Dict.keys t) ->
  Dict.get T t = Some i ->
  In T (critical_seeds t)
  <-> float i = 0 /\ forall D, In D (dependencies i) -> is_critical t D = false.
Proof.
  intros N G. unfold critical_seeds. rewrite in_map_iff. split.
  - intros [[k j] [E I]]. simpl in E. subst k. apply filter_In in I as [I F].
    rewrite (In_get _ _ _ N I) in G. inversion G; subst j.
    apply andb_true_iff in F as [F1 F2]. split; [now apply Z.eqb_eq|].
    intros D J. rewrite forallb_forall in F2. specialize (F2 D J).
    now destruct (is_critical t D).
  - intros [F H]. exists (T, i). split; [reflexivity|].
    apply filter_In. split; [now apply get_In|].
    apply andb_true_iff. split; [now apply Z.eqb_eq|].
    apply forallb_forall. intros D J. now rewrite (H D J).
Qed.

Lemma critical_dependency_dec t (l : list string) :
  (forall D, In D l -> is_critical t D = false)
  \/ exists D, In D l /\ is_critical t D = true.
Proof.
  induction l as [|d r [IH|[D [I C]]]].
  - left. intros ? [].
  - destruct (is_critical t d) eqn:C.
    + right. exists d. split; [now left | exact C].
    + left. intros D [<-|I]; auto.
  - right. exists D. split; [now right | exact C].
Qed.

Lemma bfs_reaches_critical t p :
  valid_registry t ->
  bfs_order (critical_successors t) (critical_seeds t) [] p ->
  forall T, In T p <-> is_critical t T = true.
Proof.
  intros V O T. destruct (valid_topological _ V) as [order [_ [Tp K]]].
  pose proof V as [N _]. split.
  - revert T.
    apply (bfs_order_in (fun x => is_critical t x = true)
                        (critical_successors t) (critical_seeds t) [] p); [| exact O |].
    + intros x y _ I. unfold critical_successors in I. now apply filter_In in I.
    + intros x I. now apply in_critical_seeds.
  - destruct (bfs_order_closed _ _ _ _ O) as [Q C].
    assert (H : forall l, topo_prefix (gedge (graph_of t)) l ->
                forall x, In x l -> is_critical t x = true -> In x p).
    { induction 1 as [|l v Tl IH Hv Hp]; intros x I Cx; [contradiction|].
      apply in_app_or in I as [I|[<-|[]]]; [now apply IH|].
      unfold is_critical in Cx. destruct (Dict.get v t) as [i|] eqn:G; [|discriminate].
      apply Z.eqb_eq in Cx.
      destruct (critical_dependency_dec t (dependencies i)) as [A|[D [J CD]]].
      - destruct (Q v) as [[]|X]; [|exact X].
        apply (in_critical_seeds_iff _ _ _ N G). auto.
      - assert (Dv : In D (deps_of t v)) by now rewrite (deps_of_get _ _ _ G).
        assert (Dl : In D l) by now apply Hp, gedge_graph_of.
        destruct (C D v (IH D Dl CD)) as [[]|X]; [|exact X].
        unfold critical_successors. apply filter_In. split.
        + apply in_successors_of; [exact N|]. now apply depends_on_deps_of.
        + unfold is_critical. rewrite G. now apply Z.eqb_eq. }
    intros Cx. apply (H order Tp); [|exact Cx]. apply K.
    unfold is_critical in Cx. destruct (Dict.get T t) eqn:G; [|discriminate].
    eapply get_Some_keys; eauto.
Qed.




(** ** The equations of the passes have one solution *)

Lemma forward_unique g t1 t2 l :
  topo_prefix (gedge g) l ->
  (forall T D, In D (deps_of t1 T) -> gedge g D T) ->
  skeleton t1 = skeleton t2 ->
  (forall T, In T l -> forward_eq t1 T) ->
  (forall T, In T l -> forward_eq t2 T) ->
  forall T, In T l ->
    field est t1 T = field est t2 T /\ field eft t1 T = field eft t2 T.
Proof.
  intros Tp HE S. induction Tp as [|l v Tl IH Hv Hp]; intros F1 F2 T I;
    [contradiction|].
  assert (IH' : forall x, In x l ->
                  field est t1 x = field est t2 x /\ field eft t1 x = field eft t2 x).
  { apply IH; intros x J; [apply F1 | apply F2]; apply in_or_app; now left. }
  apply in_app_or in I as [I|[<-|[]]]; [now apply IH'|].
  assert (Iv : In v (l ++ [v])) by (apply in_or_app; right; now left).
  destruct (F1 v Iv) as [A1 A2]. destruct (F2 v Iv) as [B1 B2].
  assert (E : field est t1 v = field est t2 v).
  { rewrite A1, B1, <- (skeleton_deps_of _ _ v S). apply fold_left_ext_in.
    intros a D J. f_equal. apply IH', Hp, HE, J. }
  split; [exact E|]. rewrite A2, B2, E. f_equal. now apply skeleton_duration.
Qed.

Lemma backward_unique g pd t1 t2 l :
  topo_prefix (gedge g) l ->
  (forall x, In x (Dict.keys t1) -> In x l) ->
  (forall T S, gedge g T S -> In S (Dict.keys t1)) ->
  skeleton t1 = skeleton t2 ->
  (forall T, field est t1 T = field est t2 T) ->
  (forall T, In T (Dict.keys t1) -> backward_eq g pd t1 T) ->
  (forall T, In T (Dict.keys t1) -> backward_eq g pd t2 T) ->
  forall T, In T (Dict.keys t1) ->
    field lft t1 T = field lft t2 T
    /\ field lst t1 T = field lst t2 T
    /\ field float t1 T = field float t2 T.
Proof.
  intros Tp K HS S Est B1 B2.
  assert (H : forall T, In T (Dict.keys t1) -> ~ In T [] ->
                field lft t1 T = field lft t2 T
                /\ field lst t1 T = field lst t2 T
                /\ field float t1 T = field float t2 T); [|intros T I; now apply H].
  apply (topo_rev_ind (gedge g)
           (fun l => forall T, In T (Dict.keys t1) -> ~ In T l ->
                       field lft t1 T = field lft t2 T
                       /\ field lst t1 T = field lst t2 T
                       /\ field float t1 T = field float t2 T) l Tp).
  - intros T I J. exfalso. now apply J, K.
  - intros l' v Tl Hv Hp P T I J.
    destruct (string_dec T v) as [->|Hne].
    2:{ apply P; [exact I|]. intros X. apply in_app_or in X as [X|[X|[]]]; congruence. }
    destruct (B1 v I) as [A1 [A2 A3]]. destruct (B2 v I) as [C1 [C2 C3]].
    assert (E : field lft t1 v = field lft t2 v).
    { rewrite A1, C1.
      rewrite (fold_left_ext_in
                 (fun m S => min_inf m (field lst t1 S))
                 (fun m S => min_inf m (field lst t2 S))); [reflexivity|].
      intros a S0 J0. f_equal.
      apply P; [eapply HS; exact J0|].
      apply (topo_successor_outside _ _ _ _ Tl Hv Hp). exact J0. }
    assert (E' : field lst t1 v = field lst t2 v).
    { rewrite A2, C2, E. f_equal. now apply skeleton_duration. }
    split; [exact E|]. split; [exact E'|]. now rewrite A3, C3, E', Est.
Qed.

Lemma task_info_ext (i j : task_info) :
  duration i = duration j -> dependencies i = dependencies j ->
  est i = est j -> eft i = eft j -> lst i = lst j -> lft i = lft j ->
  float i = float j -> i = j.
Proof. destruct i, j; simpl; intros; subst; reflexivity. Qed.

(** two registries with the same skeleton that satisfy the equations of both
    passes for the same project duration are the same registry *)
Lemma schedule_unique t1 t2 pd :
  valid_registry t1 ->
  skeleton t1 = skeleton t2 ->
  (forall T, In T (Dict.keys t1) -> forward_eq t1 T) ->
  (forall T, In T (Dict.keys t1) -> forward_eq t2 T) ->
  (forall T, In T (Dict.keys t1) -> backward_eq (graph_of t1) pd t1 T) ->
  (forall T, In T (Dict.keys t1) -> backward_eq (graph_of t1) pd t2 T) ->
  t1 = t2.
Proof.
  intros V S F1 F2 B1 B2.
  destruct (valid_topological _ V) as [order [_ [Tp K]]]. pose proof V as [N _].
  assert (HE : forall T D, In D (deps_of t1 T) -> gedge (graph_of t1) D T).
  { intros T D I. now apply gedge_graph_of. }
  assert (Fw : forall T, In T (Dict.keys t1) ->
                 field est t1 T = field est t2 T /\ field eft t1 T = field eft t2 T).
  { intros T I. apply (forward_unique _ _ _ _ Tp HE S); try (now apply K);
      intros x J; [apply F1 | apply F2]; now apply K. }
  assert (Nk : forall f T, ~ In T (Dict.keys t1) -> field f t1 T = field f t2 T).
  { intros f T J. unfold field.
    assert (G1 : Dict.get T t1 = None) by now apply get_None.
    assert (G2 : Dict.get T t2 = None).
    { apply get_None. now rewrite <- (skeleton_keys _ _ S). }
    now rewrite G1, G2. }
  assert (Est : forall T, field est t1 T = field est t2 T).
  { intros T. destruct (in_dec string_dec T (Dict.keys t1)) as [I|I];
      [now apply Fw | now apply Nk]. }
  assert (Bw : forall T, In T (Dict.keys t1) ->
                 field lft t1 T = field lft t2 T
                 /\ field lst t1 T = field lst t2 T
                 /\ field float t1 T = field float t2 T).
  { apply (backward_unique _ pd _ _ _ Tp); auto.
    - intros x I. now apply K.
    - intros T S0 He. apply gedge_graph_of in He; [|exact N].
      eapply deps_of_key; eauto. }
  apply dict_ext; [exact N | now apply skeleton_keys |].
  intros k. destruct (Dict.get k t1) as [i|] eqn:G1.
  - destruct (skeleton_get _ _ _ _ S G1) as [j [G2 [D1 D2]]]. rewrite G2. f_equal.
    assert (I : In k (Dict.keys t1)) by (eapply get_Some_keys; eauto).
    destruct (Fw k I) as [X1 X2]. destruct (Bw k I) as [X3 [X4 X5]].
    unfold field in X1, X2, X3, X4, X5. rewrite G1, G2 in *.
    apply task_info_ext; congruence.
  - symmetry. apply get_None. rewrite <- (skeleton_keys _ _ S). now apply get_None.
Qed.

(** C7.  Calling [analyze()] twice in a row gives the same result, and the
    second call leaves the object as the first left it: the same computed
    fields of every task, the same project duration and the same critical
    path in the same order. *)
Theorem analyze_idempotent (cs : list call) :
  let first := analyze (run cs) in
  let second := analyze (state_of first) in
  second = first
  /\ tasks (state_of second) = tasks (state_of first)
  /\ project_duration (state_of second) = project_duration (state_of first)
  /\ critical_path (state_of second) = critical_path (state_of first).
Proof.
  intros first second.
  assert (E : second = first); [|rewrite E; auto].
  unfold second, first. destruct (run_well_formed cs) as [N _].
  destruct (analyze_cases _ N) as [[V [d1 R1]]|[_ [m R1]]]; rewrite R1; simpl;
    [|exact R1].
  destruct (analyze_success _ _ _ N R1) as [_ [S1 [Hg1 [F1 [B1 [P1 Id1]]]]]].
  pose proof (valid_skeleton _ _ (eq_sym S1) V) as V1. pose proof V1 as [N1 _].
  destruct (analyze_valid d1 V1) as [t2 [pd2 [R2 [S2 [F2 [B2 P2]]]]]].
  rewrite R2. f_equal.
  assert (Heft : forall x, field eft t2 x = field eft (tasks d1) x).
  { intros x. destruct (in_dec string_dec x (Dict.keys (tasks d1))) as [I|I].
    - symmetry.
      destruct (valid_topological _ V1) as [order [_ [Tp K]]].
      apply (forward_unique (graph_of (tasks d1)) (tasks d1) t2 order Tp);
        try (now apply K); try (now symmetry).
      + intros T D J. now apply gedge_graph_of.
      + intros y J. apply F1. now apply K.
      + intros y J. apply F2. now apply K.
    - unfold field.
      assert (G1 : Dict.get x (tasks d1) = None) by now apply get_None.
      assert (G2 : Dict.get x t2 = None).
      { apply get_None. now rewrite (skeleton_keys _ _ S2). }
      now rewrite G1, G2. }
  assert (Ep : pd2 = project_duration d1).
  { rewrite P2.
    rewrite <- (project_duration_transfer (tasks d1) t2 (project_duration d1)
                  N1 S2 Heft).
    revert P1. destruct (Dict.values (tasks d1)); intros P1;
      [reflexivity | now symmetry]. }
  assert (Et : tasks d1 = t2).
  { apply (schedule_unique _ _ (project_duration d1) V1).
    - symmetry. exact S2.
    - exact F1.
    - exact F2.
    - intros T I. rewrite <- Hg1. now apply B1.
    - intros T I. rewrite <- Ep. now apply B2. }
  rewrite Id1 at 3. rewrite <- Et, Ep, <- Hg1. destruct d1; reflexivity.
Qed.

(** ** Scenarios *)

(** the linear chain A(3), B(4, after A) *)
Example chain_schedule :
  analyze (run sample_chain)
  = Returns (true, EmptyString)
      (mk_diagram
         [("A", mk_task 3 [] 0 3 0 3 0); ("B", mk_task 4 ["A"] 3 7 3 7 0)]
         [("A", ["B"]); ("B", [])]
         ["A"; "B"]
         7).
Proof. reflexivity. Qed.

(** the diamond A(3), B(4, A), C(2, A), D(5, B), E(6, C), F(4, D and E) *)
Example diamond_schedule :
  let d' := state_of (analyze (run sample_diamond)) in
  project_duration d' = 16
  /\ critical_path d' = ["A"; "B"; "D"; "F"]
  /\ map (field float (tasks d')) ["A"; "B"; "C"; "D"; "E"; "F"] = [0; 0; 1; 0; 1; 0].
Proof. repeat split. Qed.

(** B depends on A and A on B *)
Example cycle_rejected :
  let d := run [AddTask "A" 3 (Some ["B"]); AddTask "B" 4 (Some ["A"])] in
  analyze d = Returns (false, circular_dependency) d.
Proof. reflexivity. Qed.

(** a dependency that was never added *)
Example unknown_dependency_rejected :
  let d := run [AddTask "A" 3 (Some ["X"])] in
  analyze d = Returns (false, "Task 'A' depends on non-existent task 'X'") d.
Proof. reflexivity. Qed.

(** two independent critical chains are listed seed by seed, then level by
    level *)
Example parallel_chains :
  critical_path
    (state_of (analyze (run [AddTask "A" 2 None; AddTask "B" 2 None;
                             AddTask "C" 3 (Some ["A"]); AddTask "D" 3 (Some ["B"])])))
  = ["A"; "B"; "C"; "D"].
Proof. reflexivity. Qed.

(** * Further properties of the engine *)

(** ** What a successful analysis leaves *)

Lemma analyze_schedule (cs : list call) (msg : string) (d' : PERTDiagram) :
  analyze (run cs) = Returns (true, msg) d' ->
  valid_registry (tasks d')
  /\ skeleton (tasks d') = skeleton (tasks (run cs))
  /\ graph d' = graph_of (tasks d')
  /\ (forall T, In T (Dict.keys (tasks d')) -> forward_eq (tasks d') T)
  /\ (forall T, In T (Dict.keys (tasks d')) ->
                backward_eq (graph_of (tasks d')) (project_duration d') (tasks d') T)
  /\ (forall T, In T (Dict.keys (tasks d')) ->
                field eft (tasks d') T <= project_duration d')
  /\ (forall T, In T (Dict.keys (tasks d')) ->
                field est (tasks d') T <= field lst (tasks d') T)
  /\ bfs_order (critical_successors (tasks d')) (critical_seeds (tasks d')) []
               (critical_path d').
Proof.
  intros R. destruct (run_well_formed cs) as [N _].
  destruct (analyze_success _ _ _ N R) as [V [S [Hg [F [B [P Id]]]]]].
  pose proof (valid_skeleton _ _ (eq_sym S) V) as V'. pose proof V' as [N' _].
  rewrite Hg in B.
  assert (Hpd : forall x, In x (Dict.keys (tasks d')) ->
                          field eft (tasks d') x <= project_duration d').
  { intros x I. pose proof (eft_le_project_duration _ _ I) as L. rewrite P.
    destruct (Dict.values (tasks d')) as [|j r] eqn:Vs; [|exact L].
    apply values_nil_keys in Vs. rewrite Vs in I. contradiction. }
  split; [exact V'|]. split; [exact S|]. split; [exact Hg|].
  split; [exact F|]. split; [exact B|]. split; [exact Hpd|]. split.
  - now apply (slack_nonneg _ _ V' F B Hpd).
  - pose proof (identify_bfs_order d' N' Hg) as O. now rewrite <- Id in O.
Qed.

Lemma depends_on_key t T D : depends_on t T D -> In T (Dict.keys t).
Proof. intros [i [G _]]. eapply get_Some_keys; eauto. Qed.

Lemma valid_depends_on_key t T D :
  valid_registry t -> depends_on t T D -> In D (Dict.keys t).
Proof.
  intros V [i [G I]]. eapply (valid_closed _ V); [apply get_In; exact G | exact I].
Qed.

(** the latest finish of a dependency is no later than the latest start of
    its dependent *)
Lemma backward_le_successor t pd T D :
  NoDup (Dict.keys t) ->
  backward_eq (graph_of t) pd t D ->
  depends_on t T D ->
  field lft t D <= field lst t T.
Proof.
  intros N [E _] Dep. rewrite E.
  assert (I : In T (DiGraph.successors (graph_of t) D)).
  { rewrite successors_graph_of by exact N. now apply in_successors_of. }
  destruct (fold_left _ (DiGraph.successors (graph_of t) D) None) as [m|] eqn:Fm.
  - apply fold_min_is_min in Fm as [_ [_ U]]. apply U.
    now apply (in_map (field lst t)).
  - apply fold_min_nil in Fm. rewrite Fm in I. contradiction.
Qed.

Lemma forward_ge_dependency t T D :
  forward_eq t T -> depends_on t T D -> field eft t D <= field est t T.
Proof.
  intros [E _] Dep. rewrite E.
  destruct (fold_max_bounds (field eft t) (deps_of t T) 0) as [_ [U _]].
  apply U. now apply depends_on_deps_of.
Qed.








(** ** Whole-number durations: critical chains *)

(** The three facts of this part need the sums and differences of the passes
    to be exact, as they are on Python integers and on floats that hold
    whole numbers of moderate size.  On fractional durations the passes
    round and each of them can fail: with [A] of [0.1] and [B] of [0.2]
    after [A] no slack is exactly [0] and the critical path is empty. *)

Lemma is_critical_float t T i :
  Dict.get T t = Some i -> (is_critical t T = true <-> float i = 0).
Proof. intros G. unfold is_critical. rewrite G. apply Z.eqb_eq. Qed.

Lemma is_critical_field t T :
  In T (Dict.keys t) -> (is_critical t T = true <-> field float t T = 0).
Proof.
  intros K. destruct (keys_get _ _ K) as [i G].
  rewrite (field_get _ _ _ _ G). now apply is_critical_float.
Qed.

(** after a successful [analyze()] a critical task that has successors has
    a critical successor that starts exactly when it finishes, and a
    critical task without successor finishes exactly at the project
    duration: a critical chain can be followed to the end of the project *)
Lemma critical_task_has_critical_successor (cs : list call) (msg : string)
    (d' : PERTDiagram) :
  analyze (run cs) = Returns (true, msg) d' ->
  forall T i, Dict.get T (tasks d') = Some i -> float i = 0 ->
    (successors_of (tasks d') T = [] -> eft i = project_duration d')
    /\ (successors_of (tasks d') T <> [] ->
        exists S, In S (successors_of (tasks d') T)
                  /\ is_critical (tasks d') S = true
                  /\ field est (tasks d') S = eft i).
Proof.
  intros R T i G Fl.
  destruct (analyze_schedule _ _ _ R) as [V [_ [_ [F [B [_ [Sl _]]]]]]].
  pose proof V as [N _].
  assert (K : In T (Dict.keys (tasks d'))) by (eapply get_Some_keys; eauto).
  destruct (F T K) as [_ E2]. destruct (B T K) as [E1 [E3 E4]].
  rewrite (successors_graph_of _ _ N) in E1.
  rewrite (field_get est _ _ _ G) in E2, E4.
  rewrite (field_get eft _ _ _ G), (field_get duration _ _ _ G) in E2.
  rewrite (field_get lft _ _ _ G) in E1, E3.
  rewrite (field_get lst _ _ _ G) in E3, E4.
  rewrite (field_get duration _ _ _ G) in E3.
  rewrite (field_get float _ _ _ G) in E4.
  split.
  - intros Q. rewrite Q in E1. simpl in E1. lia.
  - intros Q.
    destruct (fold_left _ (successors_of (tasks d') T) None) as [m|] eqn:Fm.
    2:{ apply fold_min_nil in Fm. contradiction. }
    apply fold_min_is_min in Fm as [_ [Im _]].
    apply in_map_iff in Im as [S [Es Is]]. exists S. split; [exact Is|].
    assert (Dep : depends_on (tasks d') S T) by now apply in_successors_of.
    assert (Ks : In S (Dict.keys (tasks d'))) by (eapply depends_on_key; eauto).
    pose proof (forward_ge_dependency _ _ _ (F S Ks) Dep) as Ge.
    rewrite (field_get eft _ _ _ G) in Ge.
    pose proof (Sl S Ks) as SlS. destruct (B S Ks) as [_ [_ E5]].
    split; [|lia]. apply is_critical_field; [exact Ks | lia].
Qed.

Lemma positive_durations_skeleton t t' :
  skeleton t = skeleton t' ->
  positive_durations t = true -> positive_durations t' = true.
Proof.
  intros S H. unfold positive_durations. apply forallb_forall.
  intros i I. unfold Dict.values in I. apply in_map_iff in I as [[k j] [E I]].
  simpl in E. subst j. apply Z.ltb_lt.
  assert (X : In (k, (duration i, dependencies i)) (skeleton t')).
  { unfold skeleton. apply in_map_iff. exists (k, i). auto. }
  rewrite <- S in X. unfold skeleton in X. apply in_map_iff in X as [[k0 i0] [E0 I0]].
  assert (Ed : duration i0 = duration i) by congruence. rewrite <- Ed.
  unfold positive_durations in H. rewrite forallb_forall in H.
  apply Z.ltb_lt, H. unfold Dict.values. apply in_map_iff. exists (k0, i0). auto.
Qed.

(** with positive durations every earliest finish is positive *)
Lemma forward_eft_positive t T :
  positive_durations t = true -> In T (Dict.keys t) -> forward_eq t T ->
  0 < field eft t T.
Proof.
  intros Pos K F. pose proof (forward_est_nonneg _ _ F). destruct F as [_ E].
  pose proof (positive_durations_field _ _ Pos K). lia.
Qed.

(** after a successful [analyze()] of a project with positive durations a
    critical task that has dependencies has a critical dependency that
    finishes exactly when it starts, and a critical task without dependency
    starts at [0]: a critical chain can be followed back to the start of the
    project *)
Lemma critical_task_has_critical_dependency (cs : list call) (msg : string)
    (d' : PERTDiagram) :
  analyze (run cs) = Returns (true, msg) d' ->
  positive_durations (tasks (run cs)) = true ->
  forall T i, Dict.get T (tasks d') = Some i -> float i = 0 ->
    (dependencies i = [] -> est i = 0)
    /\ (dependencies i <> [] ->
        exists D, In D (dependencies i)
                  /\ is_critical (tasks d') D = true
                  /\ field eft (tasks d') D = est i).
Proof.
  intros R Pos T i G Fl.
  destruct (analyze_schedule _ _ _ R) as [V [S [_ [F [B [_ [Sl _]]]]]]].
  pose proof V as [N _].
  assert (Pos' : positive_durations (tasks d') = true).
  { apply (positive_durations_skeleton (tasks (run cs))); [now symmetry | exact Pos]. }
  assert (K : In T (Dict.keys (tasks d'))) by (eapply get_Some_keys; eauto).
  destruct (F T K) as [E1 _]. destruct (B T K) as [_ [_ E4]].
  rewrite (field_get est _ _ _ G), (deps_of_get _ _ _ G) in E1.
  rewrite (field_get float _ _ _ G), (field_get lst _ _ _ G),
          (field_get est _ _ _ G) in E4.
  split.
  - intros Q. rewrite Q in E1. exact E1.
  - intros Q.
    assert (Kd : forall D, In D (dependencies i) -> In D (Dict.keys (tasks d'))).
    { intros D I. apply (valid_depends_on_key _ T D V). exists i. auto. }
    destruct (fold_max_is_max (field eft (tasks d')) (dependencies i) Q) as [Im _].
    { intros D I. pose proof (forward_eft_positive _ D Pos' (Kd D I) (F D (Kd D I))). lia. }
    rewrite <- E1 in Im. apply in_map_iff in Im as [D [Ed Id]].
    exists D. split; [exact Id|]. split; [|exact Ed].
    assert (Dep : depends_on (tasks d') T D) by (exists i; auto).
    pose proof (backward_le_successor _ _ _ _ N (B D (Kd D Id)) Dep) as Le.
    rewrite (field_get lst _ _ _ G) in Le.
    pose proof (Sl D (Kd D Id)) as SlD.
    destruct (F D (Kd D Id)) as [_ E5]. destruct (B D (Kd D Id)) as [_ [E6 E7]].
    apply is_critical_field; [now apply Kd | lia].
Qed.

Lemma in_values_get {V} (v : V) (t : Dict.t V) :
  NoDup (Dict.keys t) -> In v (Dict.values t) -> exists k, Dict.get k t = Some v.
Proof.
  intros N I. unfold Dict.values in I. apply in_map_iff in I as [[k w] [E I]].
  simpl in E. subst w. exists k. now apply In_get.
Qed.

(** after a successful [analyze()] of a project with at least one task and
    positive durations the project duration is positive and the critical
    path is not empty: a task that finishes last, at the project duration,
    is on it *)
Lemma positive_project_has_critical_task (cs : list call) (msg : string)
    (d' : PERTDiagram) :
  analyze (run cs) = Returns (true, msg) d' ->
  positive_durations (tasks (run cs)) = true ->
  tasks (run cs) <> [] ->
  0 < project_duration d'
  /\ exists T, In T (critical_path d')
               /\ field eft (tasks d') T = project_duration d'
               /\ field float (tasks d') T = 0.
Proof.
  intros R Pos Ne. destruct (run_well_formed cs) as [N0 _].
  destruct (analyze_success _ _ _ N0 R) as [_ [_ [_ [_ [_ [P _]]]]]].
  destruct (analyze_schedule _ _ _ R) as [V [S [_ [F [B [Hpd [Sl O]]]]]]].
  pose proof V as [N _].
  assert (Pos' : positive_durations (tasks d') = true).
  { apply (positive_durations_skeleton (tasks (run cs))); [now symmetry | exact Pos]. }
  destruct (Dict.values (tasks d')) as [|j r] eqn:Vs.
  { exfalso. apply Ne. apply values_nil_keys in Vs.
    assert (Q : tasks d' = []) by (destruct (tasks d'); [reflexivity | discriminate]).
    apply (skeleton_nil _ _ (eq_sym S) Q). }
  destruct (max_of_is_max (eft j) (map eft r)) as [Im _]. rewrite <- P in Im.
  change (eft j :: map eft r) with (map eft (j :: r)) in Im.
  apply in_map_iff in Im as [i [Ei Ii]]. rewrite <- Vs in Ii.
  destruct (in_values_get _ _ N Ii) as [T G].
  assert (K : In T (Dict.keys (tasks d'))) by (eapply get_Some_keys; eauto).
  assert (Et : field eft (tasks d') T = project_duration d')
    by now rewrite (field_get _ _ _ _ G).
  pose proof (forward_eft_positive _ T Pos' K (F T K)) as Hp.
  split; [lia|].
  assert (Ns : successors_of (tasks d') T = []).
  { destruct (successors_of (tasks d') T) as [|S0 q] eqn:Q; [reflexivity|]. exfalso.
    assert (Dep : depends_on (tasks d') S0 T).
    { apply in_successors_of; [exact N|]. rewrite Q. now left. }
    assert (Ks : In S0 (Dict.keys (tasks d'))) by (eapply depends_on_key; eauto).
    pose proof (forward_ge_dependency _ _ _ (F S0 Ks) Dep).
    destruct (F S0 Ks) as [_ E]. pose proof (Hpd S0 Ks).
    pose proof (positive_durations_field _ _ Pos' Ks). lia. }
  destruct (F T K) as [_ E2]. destruct (B T K) as [E1 [E3 E4]].
  rewrite (successors_graph_of _ _ N), Ns in E1. simpl in E1.
  assert (Fz : field float (tasks d') T = 0) by lia.
  exists T. split; [|split; assumption].
  apply (bfs_reaches_critical _ _ V O). now apply is_critical_field.
Qed.

(** ** The duration of a project *)

(** X5.  After a successful [analyze()] of a project with at least one task
    and positive durations the project duration is positive, and it is the
    earliest finish of a registered task. *)
Theorem positive_project_takes_time (cs : list call) (msg : string)
    (d' : PERTDiagram) :
  analyze (run cs) = Returns (true, msg) d' ->
  positive_durations (tasks (run cs)) = true ->
  tasks (run cs) <> [] ->
  0 < project_duration d'
  /\ exists T i, Dict.get T (tasks d') = Some i /\ eft i = project_duration d'.
Proof.
  intros R Pos Ne. destruct (run_well_formed cs) as [N0 _].
  destruct (analyze_success _ _ _ N0 R) as [_ [_ [_ [_ [_ [P _]]]]]].
  destruct (analyze_schedule _ _ _ R) as [V [S [_ [F _]]]].
  pose proof V as [N _].
  assert (Pos' : positive_durations (tasks d') = true).
  { apply (positive_durations_skeleton (tasks (run cs))); [now symmetry | exact Pos]. }
  destruct (Dict.values (tasks d')) as [|j r] eqn:Vs.
  { exfalso. apply Ne. apply values_nil_keys in Vs.
    assert (Q : tasks d' = []) by (destruct (tasks d'); [reflexivity | discriminate]).
    apply (skeleton_nil _ _ (eq_sym S) Q). }
  destruct (max_of_is_max (eft j) (map eft r)) as [Im _]. rewrite <- P in Im.
  change (eft j :: map eft r) with (map eft (j :: r)) in Im.
  apply in_map_iff in Im as [i [Ei Ii]]. rewrite <- Vs in Ii.
  destruct (in_values_get _ _ N Ii) as [T G].
  assert (K : In T (Dict.keys (tasks d'))) by (eapply get_Some_keys; eauto).
  pose proof (forward_eft_positive _ T Pos' K (F T K)) as Hp.
  rewrite (field_get _ _ _ _ G) in Hp.
  split; [lia|]. exists T, i. auto.
Qed.

Lemma positive_project_takes_time_witness :
  let d' := state_of (analyze (run sample_diamond)) in
  0 < project_duration d'
  /\ exists T i, Dict.get T (tasks d') = Some i /\ eft i = project_duration d'.
Proof.
  intros d'.
  apply (positive_project_takes_time sample_diamond EmptyString d');
    vm_compute; try reflexivity. discriminate.
Defined.

(** ** The critical path of every project state *)

Lemma bfs_order_NoDup succ queue visited p :
  bfs_order succ queue visited p ->
  NoDup p /\ forall x, In x p -> ~ In x visited.
Proof.
  induction 1 as [vis | x q vis p I O [IH1 IH2] | x q vis p N O [IH1 IH2]].
  - split; [constructor | intros x []].
  - split; assumption.
  - split.
    + constructor; [|exact IH1]. intros J. apply (IH2 x J). now left.
    + intros y [<-|J]; [exact N|]. intros Q. apply (IH2 y J). now right.
Qed.

(** the critical path lists registered tasks, each once; [add_task] keeps
    it, stale, and [analyze] rebuilds it *)
Lemma run_critical_path cs :
  NoDup (critical_path (run cs))
  /\ forall x, In x (critical_path (run cs)) -> In x (Dict.keys (tasks (run cs))).
Proof.
  unfold run.
  assert (H : well_formed __init__
              /\ NoDup (critical_path __init__)
              /\ forall x, In x (critical_path __init__) ->
                           In x (Dict.keys (tasks __init__))).
  { split; [split; [constructor | auto]|]. split; [constructor | intros x []]. }
  revert H. generalize __init__ as d.
  induction cs as [|c r IH]; intros d [W [Nd Sub]]; simpl; [auto|].
  apply IH. split; [now apply exec_well_formed|].
  destruct c as [k dur deps|]; simpl.
  - split; [exact Nd|]. intros x I. rewrite keys_set.
    destruct (Dict.mem k (tasks d)); [auto | apply in_or_app; left; auto].
  - destruct W as [N _]. destruct (analyze_cases d N) as [[V [d1 R]]|[_ [m R]]];
      rewrite R; simpl; [|auto].
    destruct (analyze_success _ _ _ N R) as [_ [S [Hg [_ [_ [_ Id]]]]]].
    pose proof (valid_skeleton _ _ (eq_sym S) V) as V1. pose proof V1 as [N1 _].
    pose proof (identify_bfs_order d1 N1 Hg) as O. rewrite <- Id in O.
    split; [now apply (bfs_order_NoDup _ _ _ _ O)|].
    intros x I. apply (bfs_reaches_critical _ _ V1 O) in I.
    unfold is_critical in I. destruct (Dict.get x (tasks d1)) eqn:G; [|discriminate].
    eapply get_Some_keys; eauto.
Qed.

(** X6.  In every state of a project, analyzed or not, the critical path
    names registered tasks only and names none twice; so the summary never
    counts more critical tasks than tasks. *)
Theorem critical_path_registered_once (cs : list call) :
  let d := run cs in
  NoDup (critical_path d)
  /\ (forall x, In x (critical_path d) -> In x (Dict.keys (tasks d)))
  /\ (Summary.num_critical_tasks (get_project_summary d)
      <= Summary.num_tasks (get_project_summary d))%nat.
Proof.
  intros d. destruct (run_critical_path cs) as [Nd Sub]. fold d in Nd, Sub.
  split; [exact Nd|]. split; [exact Sub|]. simpl.
  replace (List.length (tasks d)) with (List.length (Dict.keys (tasks d)))
    by apply length_map.
  now apply NoDup_incl_length.
Qed.

Lemma count_members (l p : list string) :
  NoDup l -> NoDup p -> incl p l ->
  List.length (filter (fun k => mem_list k p) l) = List.length p.
Proof.
  intros Nl Np Sub. apply Nat.le_antisymm.
  - apply NoDup_incl_length; [now apply NoDup_filter|].
    intros x I. apply filter_In in I as [_ I]. now apply mem_list_In.
  - apply NoDup_incl_length; [exact Np|].
    intros x I. apply filter_In. split; [now apply Sub | now apply mem_list_In].
Qed.

Lemma filter_critical_rows d :
  map Task (filter Critical (get_task_table d))
  = filter (fun k => mem_list k (critical_path d)) (Dict.keys (tasks d)).
Proof.
  unfold get_task_table, Dict.keys.
  induction (tasks d) as [|[k i] r IH]; simpl; [reflexivity|].
  destruct (mem_list k (critical_path d)); simpl; now rewrite IH.
Qed.

(** X7.  In every state of a project the two projections agree: the number
    of rows of [get_task_table] flagged critical is the number of critical
    tasks of [get_project_summary], and the table has a row per task of the
    summary's count, in registry order. *)
Theorem table_agrees_with_summary (cs : list call) :
  let d := run cs in
  List.length (filter Critical (get_task_table d))
  = Summary.num_critical_tasks (get_project_summary d)
  /\ List.length (get_task_table d) = Summary.num_tasks (get_project_summary d)
  /\ map Task (get_task_table d) = Dict.keys (tasks d).
Proof.
  intros d. destruct (run_critical_path cs) as [Nd Sub]. fold d in Nd, Sub.
  destruct (run_well_formed cs) as [N _]. fold d in N.
  split; [|split].
  - rewrite <- (length_map Task), filter_critical_rows. simpl.
    now apply count_members.
  - unfold get_task_table. simpl. apply length_map.
  - unfold get_task_table, Dict.keys. rewrite map_map. apply map_ext.
    intros [k i]. reflexivity.
Qed.

(** X8.  After a successful [analyze()] a row of [get_task_table] is flagged
    critical exactly when its float is [0], and its columns are the fields of
    the registry entry of its task. *)
Theorem table_flags_zero_float (cs : list call) (msg : string) (d' : PERTDiagram) :
  analyze (run cs) = Returns (true, msg) d' ->
  forall r, In r (get_task_table d') ->
    (Critical r = true <-> Float r = 0)
    /\ exists i, Dict.get (Task r) (tasks d') = Some i
                 /\ Duration r = duration i
                 /\ EST r = est i /\ EFT r = eft i
                 /\ LST r = lst i /\ LFT r = lft i /\ Float r = float i.
Proof.
  intros R r I.
  destruct (analyze_schedule _ _ _ R) as [V [_ [_ [_ [_ [_ [_ O]]]]]]].
  pose proof V as [N _].
  unfold get_task_table in I. apply in_map_iff in I as [[k i] [E I]].
  subst r. simpl. pose proof (In_get _ _ _ N I) as G. split.
  - rewrite mem_list_In, (bfs_reaches_critical _ _ V O).
    now apply is_critical_float.
  - exists i. repeat split. exact G.
Qed.

Lemma table_flags_zero_float_witness :
  let d' := state_of (analyze (run sample_diamond)) in
  let r := mk_row "C" 2 "A" 3 5 4 6 1 false in
  (Critical r = true <-> Float r = 0)
  /\ exists i, Dict.get (Task r) (tasks d') = Some i
               /\ Duration r = duration i
               /\ EST r = est i /\ EFT r = eft i
               /\ LST r = lst i /\ LFT r = lft i /\ Float r = float i.
Proof.
  intros d' r.
  apply (table_flags_zero_float sample_diamond EmptyString d').
  - vm_compute. reflexivity.
  - vm_compute. tauto.
Defined.

(** X9.  After a successful [analyze()] the graph of the object has the
    registered tasks for nodes, in registry order, and an edge from [D] to
    [T] exactly when [T] declares the dependency [D]. *)
Theorem graph_mirrors_registry (cs : list call) (msg : string) (d' : PERTDiagram) :
  analyze (run cs) = Returns (true, msg) d' ->
  DiGraph.nodes (graph d') = Dict.keys (tasks d')
  /\ forall D T, DiGraph.has_edge (graph d') D T = true <-> depends_on (tasks d') T D.
Proof.
  intros R.
  destruct (analyze_schedule _ _ _ R) as [V [_ [Hg _]]].
  pose proof V as [N _]. rewrite Hg. split.
  - apply nodes_graph_of; [exact N | now apply valid_closed].
  - intros D T. unfold DiGraph.has_edge.
    fold (mem_list T (DiGraph.successors (graph_of (tasks d')) D)).
    rewrite mem_list_In, successors_graph_of by exact N.
    now apply in_successors_of.
Qed.

Lemma graph_mirrors_registry_witness :
  let d' := state_of (analyze (run sample_diamond)) in
  DiGraph.nodes (graph d') = Dict.keys (tasks d')
  /\ forall D T, DiGraph.has_edge (graph d') D T = true <-> depends_on (tasks d') T D.
Proof.
  intros d'. apply (graph_mirrors_registry sample_diamond EmptyString d').
  vm_compute. reflexivity.
Defined.

(** X10.  A task that lists itself among its dependencies makes the
    analysis fail: with the circular-dependency message when every declared
    dependency is registered, and in any case without touching the object. *)
Theorem self_dependency_rejected (cs : list call) (T : string) :
  depends_on (tasks (run cs)) T T ->
  exists message,
    analyze (run cs) = Returns (false, message) (run cs)
    /\ ((forall T' D, ~ unknown_dependency_in (tasks (run cs)) T' D) ->
        message = circular_dependency).
Proof.
  intros Dep. destruct (run_well_formed cs) as [N _].
  assert (Cy : has_cycle (tasks (run cs))).
  { exists T. apply path_edge. exact Dep. }
  unfold analyze.
  destruct (validate_tasks_cases _ N)
    as [[T' [D [U R]]] | [[U [C R]] | [U [C R]]]]; rewrite R.
  - eexists. split; [reflexivity|]. intros H. exfalso. apply (H T' D U).
  - eexists. split; [reflexivity|]. reflexivity.
  - contradiction.
Qed.

Lemma self_dependency_rejected_witness :
  let cs := [AddTask "A" 3 None; AddTask "B" 2 (Some ["A"; "B"])] in
  exists message,
    analyze (run cs) = Returns (false, message) (run cs)
    /\ ((forall T' D, ~ unknown_dependency_in (tasks (run cs)) T' D) ->
        message = circular_dependency).
Proof.
  intros cs. apply (self_dependency_rejected cs "B").
  exists (mk_task 2 ["A"; "B"] 0 0 0 0 0). split; [reflexivity|].
  simpl. auto.
Defined.

(** ** The analysis reads the registrations only *)


Lemma analyze_keeps_skeleton d :
  NoDup (Dict.keys (tasks d)) ->
  skeleton (tasks (state_of (analyze d))) = skeleton (tasks d).
Proof.
  intros N. destruct (analyze_cases d N) as [[V [d1 R]]|[_ [m R]]]; rewrite R; simpl.
  - now destruct (analyze_success _ _ _ N R) as [_ [S _]].
  - reflexivity.
Qed.



Lemma validate_tasks_true_valid s msg s' :
  NoDup (Dict.keys (tasks s)) ->
  validate_tasks s = Returns (true, msg) s' -> valid_registry (tasks s).
Proof.
  intros N. unfold validate_tasks.
  destruct (first_missing (tasks s) (tasks s)) as [[T D]|] eqn:F; [discriminate|].
  destruct (find_cycle (graph_of (tasks s))) eqn:C; [discriminate|].
  intros _. now repeat split.
Qed.



(** ** Projects entered through the interface *)

Lemma set_absent {V} k (v : V) (t : Dict.t V) :
  ~ In k (Dict.keys t) -> Dict.set k v t = t ++ [(k, v)].
Proof.
  unfold Dict.keys. induction t as [|[k' v'] r IH]; simpl; [reflexivity|].
  intros H. destruct (String.eqb_spec k k') as [->|Hk]; [tauto|].
  f_equal. apply IH. tauto.
Qed.

Lemma topo_prefix_weaken (E E' : string -> string -> Prop) l :
  topo_prefix E l ->
  (forall u v, In v l -> E' u v -> E u v) ->
  topo_prefix E' l.
Proof.
  induction 1 as [|l v T IH Hv Hp]; intros H; [constructor|].
  constructor.
  - apply IH. intros u w I. apply H, in_or_app. now left.
  - exact Hv.
  - intros u He. apply Hp, H; [|exact He]. apply in_or_app. right. now left.
Qed.

Lemma entered_in_order_nil : entered_in_order [].
Proof.
  split; [constructor|]. split; [intros []|]. split; [reflexivity|].
  apply (topo_snoc _ [] EmptyString); [constructor | intros [] |].
  intros u [i [G _]]. discriminate.
Qed.

Lemma entered_in_order_add t k dur deps :
  entered_in_order t ->
  k <> EmptyString ->
  ~ In k (Dict.keys t) ->
  0 < dur ->
  (forall D, In D deps -> D = EmptyString \/ In D (Dict.keys t)) ->
  entered_in_order (Dict.set k (mk_task dur deps 0 0 0 0 0) t).
Proof.
  intros [N [E [P T]]] Hk Hn Hd Hdeps. rewrite (set_absent _ _ _ Hn).
  assert (K : Dict.keys (t ++ [(k, mk_task dur deps 0 0 0 0 0)]) = Dict.keys t ++ [k]).
  { unfold Dict.keys. now rewrite map_app. }
  assert (G : forall v, v <> k ->
                Dict.get v (t ++ [(k, mk_task dur deps 0 0 0 0 0)]) = Dict.get v t).
  { intros v Hv. rewrite get_app. destruct (Dict.get v t); [reflexivity|].
    simpl. destruct (String.eqb_spec v k); [contradiction | reflexivity]. }
  split; [|split; [|split]].
  - rewrite K. apply NoDup_rev in N. rewrite <- (rev_involutive (_ ++ _)).
    apply NoDup_rev. rewrite rev_app_distr. simpl. constructor; [|exact N].
    now rewrite <- in_rev.
  - rewrite K. intros I. apply in_app_or in I as [I|[I|[]]]; [tauto | congruence].
  - unfold positive_durations, Dict.values in *. rewrite map_app, forallb_app, P.
    simpl. apply Z.ltb_lt in Hd. now rewrite Hd.
  - rewrite K. change (EmptyString :: Dict.keys t ++ [k])
      with ((EmptyString :: Dict.keys t) ++ [k]).
    constructor.
    + apply (topo_prefix_weaken (dep_edge t)); [exact T|].
      intros u v I [i [Gv Iu]]. exists i. split; [|exact Iu].
      rewrite <- G; [exact Gv|]. intros ->.
      destruct I as [I|I]; [congruence | contradiction].
    + intros [I|I]; [congruence | contradiction].
    + intros u [i [Gk Iu]]. rewrite get_app in Gk.
      assert (Gn : Dict.get k t = None) by now apply get_None.
      rewrite Gn in Gk. simpl in Gk. rewrite String.eqb_refl in Gk.
      inversion Gk; subst i. simpl in Iu.
      destruct (Hdeps u Iu) as [->|I]; [now left | now right].
Qed.

Lemma entered_in_order_skeleton t t' :
  skeleton t = skeleton t' -> entered_in_order t -> entered_in_order t'.
Proof.
  intros S [N [E [P T]]]. pose proof (skeleton_keys _ _ S) as K.
  split; [now rewrite <- K|]. split; [now rewrite <- K|].
  split; [now apply (positive_durations_skeleton t)|].
  rewrite <- K. apply (topo_prefix_weaken (dep_edge t)); [exact T|].
  intros u v _ Dep. apply depends_on_deps_of.
  rewrite (skeleton_deps_of _ _ v S). now apply depends_on_deps_of.
Qed.

Lemma entered_in_order_acyclic t : entered_in_order t -> ~ has_cycle t.
Proof.
  intros [N [E [P T]]] [x Px].
  apply (topo_prefix_acyclic _ _ x T); [|exact Px].
  destruct (path_last _ _ _ Px) as [u [Dep _]].
  right. eapply depends_on_key; exact Dep.
Qed.

Lemma entered_in_order_unknown t T D :
  entered_in_order t -> unknown_dependency_in t T D -> D = EmptyString.
Proof.
  intros [N [E [P Tp]]] [Dep M].
  assert (I : In D (EmptyString :: Dict.keys t)).
  { apply (topo_prefix_closed _ _ D T Tp Dep). right. eapply depends_on_key; eauto. }
  destruct I as [<-|I]; [reflexivity|].
  apply mem_keys in I. congruence.
Qed.

Lemma sample_entered_in_order :
  entered_in_order
    (tasks (fold_left (fun d '(task_id, dur, deps) =>
                         state_of (add_task task_id dur (Some deps) d))
                      get_sample_data __init__)).
Proof.
  change (entered_in_order
            (Dict.set "G" (mk_task 3 ["F"] 0 0 0 0 0)
            (Dict.set "F" (mk_task 4 ["D"; "E"] 0 0 0 0 0)
            (Dict.set "E" (mk_task 6 ["C"] 0 0 0 0 0)
            (Dict.set "D" (mk_task 5 ["B"] 0 0 0 0 0)
            (Dict.set "C" (mk_task 2 ["A"] 0 0 0 0 0)
            (Dict.set "B" (mk_task 4 ["A"] 0 0 0 0 0)
            (Dict.set "A" (mk_task 3 [] 0 0 0 0 0) [])))))))).
  repeat (apply entered_in_order_add;
          [ | discriminate
            | simpl; intuition discriminate
            | lia
            | simpl; intros D HD; right; simpl; intuition ]).
  apply entered_in_order_nil.
Qed.

Section InputBoundaryFacts.
Variable parse_float : string -> option Z.
Variable strip : string -> string.

Lemma validate_task_input_spec (task_id duration_str dependencies_str : string)
    (existing_tasks : list string) (dur : Z) (deps : list string) :
  validate_task_input parse_float strip task_id duration_str dependencies_str
                      existing_tasks
  = Accepted dur deps
  <-> task_id <> EmptyString
      /\ ~ In task_id existing_tasks
      /\ parse_float duration_str = Some dur
      /\ 0 < dur
      /\ deps = (if String.eqb (strip dependencies_str) EmptyString then []
                 else map strip (split "," dependencies_str))
      /\ (forall dep, In dep deps -> dep = EmptyString \/ In dep existing_tasks).
Proof.
  unfold validate_task_input.
  destruct (String.eqb_spec task_id EmptyString) as [->|Hid].
  { split; [discriminate | intros [H _]; congruence]. }
  destruct (mem_list task_id existing_tasks) eqn:M.
  { apply mem_list_In in M. split; [discriminate | intros [_ [H _]]; contradiction]. }
  apply mem_list_false in M.
  destruct (parse_float duration_str) as [x|] eqn:Pf.
  2:{ split; [discriminate | intros [_ [_ [H _]]]; discriminate]. }
  destruct (Z.leb_spec x 0) as [Le|Lt].
  { split; [discriminate | intros [_ [_ [H [H' _]]]]; inversion H; lia]. }
  destruct (String.eqb (strip dependencies_str) EmptyString).
  { split.
    - intros Q. inversion Q; subst. repeat split; auto. intros dep [].
    - intros [_ [_ [H [_ [-> _]]]]]. inversion H. reflexivity. }
  set (l := map strip (split "," dependencies_str)).
  destruct (find _ l) as [dep|] eqn:Fd.
  - split; [discriminate|]. intros [_ [_ [_ [_ [-> H]]]]].
    apply find_some in Fd as [I B]. apply andb_true_iff in B as [B1 B2].
    destruct (H dep I) as [->|J].
    + rewrite String.eqb_refl in B1. discriminate.
    + apply mem_list_In in J. rewrite J in B2. discriminate.
  - split.
    + intros Q. inversion Q; subst. repeat split; auto.
      intros dep I. pose proof (find_none _ _ Fd dep I) as B. simpl in B.
      destruct (String.eqb_spec dep EmptyString) as [->|]; [now left|].
      right. apply mem_list_In. simpl in B.
      now destruct (mem_list dep existing_tasks).
    + intros [_ [_ [H [_ [-> _]]]]]. inversion H. reflexivity.
Qed.

Lemma submit_task_cases task_id duration dependencies d :
  let d' := fst (submit_task parse_float strip task_id duration dependencies d) in
  d' = d
  \/ exists dur deps,
       d' = state_of (add_task task_id dur (Some deps) d)
       /\ task_id <> EmptyString
       /\ ~ In task_id (Dict.keys (tasks d))
       /\ 0 < dur
       /\ (forall D, In D deps -> D = EmptyString \/ In D (Dict.keys (tasks d))).
Proof.
  unfold submit_task.
  destruct (validate_task_input _ _ _ _ _ _) as [dur deps|m] eqn:Q; simpl; [|now left].
  right. exists dur, deps. split; [reflexivity|].
  apply validate_task_input_spec in Q. tauto.
Qed.

End InputBoundaryFacts.

Section InterfaceProjects.
Variable parse_float : string -> option Z.
Variable strip : string -> string.

Lemma ui_step_entered d e :
  entered_in_order (tasks d) ->
  entered_in_order (tasks (ui_step parse_float strip d e)).
Proof.
  intros H. destruct e as [| |task_id duration dependencies|]; simpl.
  - apply entered_in_order_nil.
  - apply sample_entered_in_order.
  - destruct (submit_task_cases parse_float strip task_id duration dependencies d)
      as [E|[dur [deps [E [H1 [H2 [H3 H4]]]]]]]; rewrite E; [exact H|].
    simpl. now apply entered_in_order_add.
  - apply (entered_in_order_skeleton (tasks d)); [|exact H].
    symmetry. apply analyze_keeps_skeleton. now destruct H.
Qed.

Lemma ui_run_entered events :
  entered_in_order (tasks (ui_run parse_float strip events)).
Proof.
  unfold ui_run.
  assert (H : entered_in_order (tasks __init__)) by apply entered_in_order_nil.
  revert H. generalize __init__ as d.
  induction events as [|e r IH]; intros d H; simpl; [exact H|].
  apply IH. now apply ui_step_entered.
Qed.

(** X13.  Whatever is done through the interface (reset, sample project,
    form submissions, analyses), the diagram it holds never has a circular
    dependency and none of its identifiers is empty.  The only dependency
    that can be unknown is the empty
    identifier, which a dependency text such as [A,,B] or one with a trailing
    comma lets through: [analyze()] succeeds when no task has it, and
    otherwise fails with the message of a task that depends on the
    non-existent task ['']. *)
Theorem interface_projects_are_acyclic (events : list ui_event) :
  let d := ui_run parse_float strip events in
  ~ has_cycle (tasks d)
  /\ ~ In EmptyString (Dict.keys (tasks d))
  /\ (forall T D, unknown_dependency_in (tasks d) T D -> D = EmptyString)
  /\ ((forall T, ~ depends_on (tasks d) T EmptyString) ->
      exists d', analyze d = Returns (true, EmptyString) d')
  /\ ((exists T, depends_on (tasks d) T EmptyString) ->
      exists T, depends_on (tasks d) T EmptyString
                /\ analyze d = Returns (false, unknown_dependency T EmptyString) d).
Proof.
  intros d. pose proof (ui_run_entered events) as H. fold d in H.
  pose proof (entered_in_order_acyclic _ H) as A.
  pose proof H as [N [E _]].
  split; [exact A|]. split; [exact E|].
  split; [intros T D; now apply entered_in_order_unknown|].
  split.
  - intros NoE. unfold analyze.
    destruct (validate_tasks_cases d N)
      as [[T [D [U R]]] | [[U [C R]] | [U [C R]]]].
    + exfalso. pose proof (entered_in_order_unknown _ _ _ H U) as ->.
      destruct U as [Dep _]. apply (NoE T Dep).
    + contradiction.
    + assert (V : valid_registry (tasks d)).
      { now apply (validate_tasks_true_valid d EmptyString d). }
      destruct (analyze_valid d V) as [t' [pd' [Q _]]]. eauto.
  - intros [T Dep].
    assert (U0 : unknown_dependency_in (tasks d) T EmptyString).
    { split; [exact Dep | now apply mem_false_keys]. }
    unfold analyze.
    destruct (validate_tasks_cases d N)
      as [[T' [D [U R]]] | [[U [C R]] | [U [C R]]]].
    + pose proof (entered_in_order_unknown _ _ _ H U) as ->.
      exists T'. split; [now destruct U|]. now rewrite R.
    + contradiction.
    + exfalso. apply (U T EmptyString U0).
Qed.

(** X14.  A form submission never replaces a task: it leaves the diagram as
    it is, or it appends one task under an identifier that was not
    registered and keeps every other entry, the project duration and the
    critical path. *)
Theorem submit_task_never_overwrites (task_id duration dependencies : string)
    (d : PERTDiagram) :
  let d' := fst (submit_task parse_float strip task_id duration dependencies d) in
  d' = d
  \/ (~ In task_id (Dict.keys (tasks d))
      /\ Dict.keys (tasks d') = Dict.keys (tasks d) ++ [task_id]
      /\ (forall k, k <> task_id -> Dict.get k (tasks d') = Dict.get k (tasks d))
      /\ project_duration d' = project_duration d
      /\ critical_path d' = critical_path d).
Proof.
  intros d'. unfold d'.
  destruct (submit_task_cases parse_float strip task_id duration dependencies d)
    as [E|[dur [deps [E [H1 [H2 [H3 H4]]]]]]]; rewrite E; [now left|].
  right. simpl. split; [exact H2|]. split; [|split; [|auto]].
  - rewrite keys_set. apply mem_false_keys in H2. now rewrite H2.
  - intros k Hk. rewrite get_set.
    destruct (String.eqb_spec k task_id); [contradiction | reflexivity].
Qed.

End InterfaceProjects.

(** ** The critical path read back by the reports *)

Lemma append_empty_r (s : string) : (s ++ EmptyString)%string = s.
Proof. induction s as [|c s IH]; simpl; [reflexivity | now rewrite IH]. Qed.

Lemma append_assoc_char (cur : string) c (e : string) :
  ((cur ++ String c EmptyString) ++ e)%string = (cur ++ String c e)%string.
Proof. induction cur as [|a cur IH]; simpl; [reflexivity | now rewrite IH]. Qed.

Lemma occurs_tail p c s : occurs p (String c s) = false -> occurs p s = false.
Proof. simpl. intros H. apply orb_false_iff in H. tauto. Qed.

Lemma prefix_cons_true a s1 b s2 :
  prefix (String a s1) (String b s2) = true -> a = b /\ prefix s1 s2 = true.
Proof.
  cbn [prefix]. destruct (Ascii.ascii_dec a b); [auto | discriminate].
Qed.

Lemma prefix_append (p s : string) : prefix p (p ++ s) = true.
Proof.
  induction p as [|a p IH]; [destruct s; reflexivity|].
  cbn [append prefix]. destruct (Ascii.ascii_dec a a); [exact IH | congruence].
Qed.

(** a piece without arrow, followed by nothing or by the separator, holds
    no occurrence of the separator that starts inside the piece *)
Lemma no_early_separator c e rest :
  occurs arrow (String c e) = false ->
  rest = EmptyString \/ (exists X, rest = (arrow_separator ++ X)%string) ->
  prefix arrow_separator (String c e ++ rest) = false.
Proof.
  intros Ho Hr.
  assert (Hrest : forall a p, prefix (String a p) rest = true ->
                              a = Ascii.ascii_of_nat 32).
  { intros a p Q. destruct Hr as [->|[X ->]].
    - destruct p; discriminate.
    - unfold arrow_separator in Q. cbn [append] in Q.
      now apply prefix_cons_true in Q as [-> _]. }
  destruct (prefix arrow_separator (String c e ++ rest)) eqn:P; [|reflexivity].
  exfalso. unfold arrow_separator in P. cbn [append] in P.
  apply prefix_cons_true in P as [_ P].
  destruct e as [|c1 e1]; cbn [append] in P.
  { apply Hrest in P. discriminate. }
  apply prefix_cons_true in P as [E1 P].
  destruct e1 as [|c2 e2]; cbn [append] in P.
  { apply Hrest in P. discriminate. }
  apply prefix_cons_true in P as [E2 P].
  destruct e2 as [|c3 e3]; cbn [append] in P.
  { apply Hrest in P. discriminate. }
  apply prefix_cons_true in P as [E3 P].
  subst c1 c2 c3. apply occurs_tail in Ho.
  cbn [occurs] in Ho. apply orb_false_iff in Ho as [Ho _].
  pose proof (prefix_append arrow e3) as Q. unfold arrow in Ho, Q.
  cbn [append] in Q. congruence.
Qed.

Lemma split_piece e :
  forall rest cur,
    occurs arrow e = false ->
    rest = EmptyString \/ (exists X, rest = (arrow_separator ++ X)%string) ->
    split_from arrow_separator (e ++ rest) 0 cur
    = split_from arrow_separator rest 0 (cur ++ e).
Proof.
  induction e as [|c e IH]; intros rest cur Ho Hr.
  - simpl. now rewrite append_empty_r.
  - change (String c e ++ rest)%string with (String c (e ++ rest)).
    cbn [split_from].
    change (String c (e ++ rest)) with (String c e ++ rest)%string.
    rewrite (no_early_separator c e rest Ho Hr).
    rewrite IH; [| eapply occurs_tail; exact Ho | exact Hr].
    now rewrite append_assoc_char.
Qed.

Lemma split_separator X cur :
  split_from arrow_separator (arrow_separator ++ X) 0 cur
  = cur :: split_from arrow_separator X 0 EmptyString.
Proof.
  pose proof (prefix_append arrow_separator X) as P.
  unfold arrow_separator at 2. unfold arrow_separator at 2 in P.
  cbn [append] in *. cbn [split_from]. rewrite P. reflexivity.
Qed.

Lemma split_concat l :
  forall x cur,
    (forall y, In y (x :: l) -> occurs arrow y = false) ->
    split_from arrow_separator (String.concat arrow_separator (x :: l)) 0 cur
    = (cur ++ x)%string :: l.
Proof.
  induction l as [|y r IH]; intros x cur H.
  - simpl String.concat. rewrite <- (append_empty_r x) at 1.
    rewrite split_piece; [reflexivity | apply H; now left | now left].
  - change (String.concat arrow_separator (x :: y :: r))
      with (x ++ arrow_separator ++ String.concat arrow_separator (y :: r))%string.
    rewrite split_piece; [| apply H; now left | right; eauto].
    rewrite split_separator, IH; [reflexivity|].
    intros z I. apply H. now right.
Qed.

Lemma concat_empty (sep x : string) (l : list string) :
  sep <> EmptyString ->
  String.concat sep (x :: l) = EmptyString -> x = EmptyString /\ l = [].
Proof.
  intros Hs. destruct l as [|y r]; simpl.
  - auto.
  - intros E. exfalso. destruct x; simpl in E; [|discriminate].
    destruct sep; [congruence | discriminate].
Qed.

(** X15.  The reports read the critical tasks back from the text of the
    summary.  When no task of the critical path has the arrow in its
    identifier, and the path is not the empty identifier alone, they read
    back the critical path itself, so their column [Critical] says [Yes]
    exactly for the tasks of the critical path. *)
Theorem report_reads_back_critical_path (d : PERTDiagram) :
  (forall x, In x (critical_path d) -> occurs arrow x = false) ->
  critical_path d <> [EmptyString] ->
  report_critical_tasks (get_project_summary d) = critical_path d
  /\ forall task_id,
       report_critical (get_project_summary d) task_id
       = if mem_list task_id (critical_path d) then "Yes" else "No".
Proof.
  intros H Ne.
  assert (E : report_critical_tasks (get_project_summary d) = critical_path d).
  { unfold report_critical_tasks, get_project_summary. cbn [Summary.critical_path].
    destruct (critical_path d) as [|x l] eqn:Q; [reflexivity|].
    destruct (String.concat arrow_separator (x :: l)) as [|c s] eqn:C.
    - apply concat_empty in C as [-> ->]; [congruence | discriminate].
    - rewrite <- C. unfold split. now rewrite split_concat. }
  split; [exact E|]. intros task_id. unfold report_critical. now rewrite E.
Qed.

Lemma report_reads_back_critical_path_witness :
  let d := state_of (analyze (run sample_diamond)) in
  report_critical_tasks (get_project_summary d) = critical_path d
  /\ forall task_id,
       report_critical (get_project_summary d) task_id
       = if mem_list task_id (critical_path d) then "Yes" else "No".
Proof.
  intros d. apply (report_reads_back_critical_path d).
  - intros x I. vm_compute in I.
    destruct I as [<-|[<-|[<-|[<-|[]]]]]; reflexivity.
  - vm_compute. discriminate.
Defined.

(** a critical task whose identifier holds the separator is reported as not
    critical *)
Example report_misreads_arrow :
  let d := state_of (analyze (run [AddTask "A → B" 3 None])) in
  critical_path d = ["A → B"]
  /\ report_critical_tasks (get_project_summary d) = ["A"; "B"]
  /\ report_critical (get_project_summary d) "A → B" = "No".
Proof. repeat split. Qed.

(** ** The schedule as a function of the registrations *)

Lemma related_spec cmp (R : Z -> Z -> Prop) t1 t2 :
  (forall x y, cmp x y = true -> R x y) -> R 0 0 ->
  NoDup (Dict.keys t1) -> NoDup (Dict.keys t2) ->
  related cmp t1 t2 = true ->
  (forall k, In k (Dict.keys t1) <-> In k (Dict.keys t2))
  /\ (forall T, deps_of t1 T = deps_of t2 T)
  /\ (forall T, R (field duration t1 T) (field duration t2 T)).
Proof.
  intros Hc R0 N1 N2 Rel. unfold related in Rel.
  apply andb_true_iff in Rel as [L Rel].
  apply Nat.eqb_eq in L. rewrite forallb_forall in Rel.
  assert (A : forall k i, Dict.get k t1 = Some i ->
                exists j, Dict.get k t2 = Some j
                          /\ R (duration i) (duration j)
                          /\ dependencies i = dependencies j).
  { intros k i G. specialize (Rel (k, i) (get_In _ _ _ G)). simpl in Rel.
    destruct (Dict.get k t2) as [j|]; [|discriminate].
    apply andb_true_iff in Rel as [R1 R2]. exists j. split; [reflexivity|].
    split; [now apply Hc|].
    now destruct (list_eq_dec string_dec (dependencies i) (dependencies j)). }
  assert (I12 : incl (Dict.keys t1) (Dict.keys t2)).
  { intros k I. destruct (keys_get _ _ I) as [i G].
    destruct (A k i G) as [j [G2 _]]. eapply get_Some_keys; eauto. }
  assert (I21 : incl (Dict.keys t2) (Dict.keys t1)).
  { apply NoDup_length_incl; [exact N1 | | exact I12].
    unfold Dict.keys. rewrite !length_map. lia. }
  split; [intros k; split; [apply I12 | apply I21]|]. split.
  - intros T. unfold deps_of. destruct (Dict.get T t1) as [i|] eqn:G.
    + destruct (A T i G) as [j [-> [_ E]]]. exact E.
    + destruct (Dict.get T t2) as [j|] eqn:G2; [|reflexivity].
      apply get_Some_keys, I21 in G2. apply get_None in G. contradiction.
  - intros T. unfold field. destruct (Dict.get T t1) as [i|] eqn:G.
    + destruct (A T i G) as [j [-> [E _]]]. exact E.
    + destruct (Dict.get T t2) as [j|] eqn:G2; [|exact R0].
      apply get_Some_keys, I21 in G2. apply get_None in G. contradiction.
Qed.

Lemma related_content cmp t1 t2 :
  (forall x y, cmp x y = true -> x <= y) ->
  NoDup (Dict.keys t1) -> NoDup (Dict.keys t2) ->
  related cmp t1 t2 = true -> content_le t1 t2.
Proof.
  intros Hc N1 N2 Rel. apply (related_spec cmp Z.le); auto. lia.
Qed.


Lemma content_le_skeleton t1 t2 t1' t2' :
  skeleton t1' = skeleton t1 -> skeleton t2' = skeleton t2 ->
  content_le t1 t2 -> content_le t1' t2'.
Proof.
  intros S1 S2 [K [D L]]. split; [|split].
  - intros k. rewrite (skeleton_keys _ _ S1), (skeleton_keys _ _ S2). apply K.
  - intros T. rewrite (skeleton_deps_of _ _ T S1), (skeleton_deps_of _ _ T S2). apply D.
  - intros T. rewrite (skeleton_duration _ _ T S1), (skeleton_duration _ _ T S2). apply L.
Qed.

Lemma fold_max_mono (f g : string -> Z) l :
  forall a b,
    a <= b -> (forall D, In D l -> f D <= g D) ->
    fold_left (fun m D => Z.max m (f D)) l a
    <= fold_left (fun m D => Z.max m (g D)) l b.
Proof.
  induction l as [|d r IH]; intros a b Hab H; simpl; [exact Hab|].
  apply IH; [|intros D I; apply H; now right].
  pose proof (H d (or_introl eq_refl)). lia.
Qed.

(** longer durations never give earlier times in the forward pass *)
Lemma forward_mono g t1 t2 l :
  topo_prefix (gedge g) l ->
  (forall T D, In D (deps_of t1 T) -> gedge g D T) ->
  (forall T, deps_of t1 T = deps_of t2 T) ->
  (forall T, field duration t1 T <= field duration t2 T) ->
  (forall T, In T l -> forward_eq t1 T) ->
  (forall T, In T l -> forward_eq t2 T) ->
  forall T, In T l ->
    field est t1 T <= field est t2 T /\ field eft t1 T <= field eft t2 T.
Proof.
  intros Tp HE HD HL. induction Tp as [|l v Tl IH Hv Hp]; intros F1 F2 T I;
    [contradiction|].
  assert (IH' : forall x, In x l ->
                  field est t1 x <= field est t2 x /\ field eft t1 x <= field eft t2 x).
  { apply IH; intros x J; [apply F1 | apply F2]; apply in_or_app; now left. }
  apply in_app_or in I as [I|[<-|[]]]; [now apply IH'|].
  assert (Iv : In v (l ++ [v])) by (apply in_or_app; right; now left).
  destruct (F1 v Iv) as [A1 A2]. destruct (F2 v Iv) as [B1 B2].
  assert (E : field est t1 v <= field est t2 v).
  { rewrite A1, B1, <- (HD v). apply fold_max_mono; [lia|].
    intros D J. apply IH', Hp, HE, J. }
  split; [exact E|]. rewrite A2, B2. pose proof (HL v). lia.
Qed.

Lemma project_duration_mono t1 t2 pd1 pd2 :
  NoDup (Dict.keys t1) -> NoDup (Dict.keys t2) ->
  (forall k, In k (Dict.keys t1) <-> In k (Dict.keys t2)) ->
  (forall T, In T (Dict.keys t1) -> field eft t1 T <= field eft t2 T) ->
  pd1 = match Dict.values t1 with [] => 0 | i :: r => max_of (eft i) (map eft r) end ->
  pd2 = match Dict.values t2 with [] => 0 | i :: r => max_of (eft i) (map eft r) end ->
  pd1 <= pd2.
Proof.
  intros N1 N2 K Le -> ->.
  destruct (Dict.values t1) as [|i r] eqn:V1.
  - apply values_nil_keys in V1.
    destruct (Dict.values t2) as [|j q] eqn:V2; [lia|]. exfalso.
    assert (X : In j (Dict.values t2)) by (rewrite V2; now left).
    destruct (in_values_get _ _ N2 X) as [k G].
    apply get_Some_keys, K in G. rewrite V1 in G. contradiction.
  - destruct (max_of_is_max (eft i) (map eft r)) as [Im _].
    change (eft i :: map eft r) with (map eft (i :: r)) in Im.
    apply in_map_iff in Im as [x [Ex Ix]]. rewrite <- V1 in Ix.
    destruct (in_values_get _ _ N1 Ix) as [k G].
    assert (Kk : In k (Dict.keys t1)) by (eapply get_Some_keys; eauto).
    pose proof (Le k Kk) as L. rewrite (field_get _ _ _ _ G) in L.
    pose proof (eft_le_project_duration t2 k (proj1 (K k) Kk)). lia.
Qed.

Lemma analyze_project_duration cs msg d' :
  analyze (run cs) = Returns (true, msg) d' ->
  project_duration d'
  = match Dict.values (tasks d') with
    | [] => 0
    | i :: r => max_of (eft i) (map eft r)
    end.
Proof.
  intros R. destruct (run_well_formed cs) as [N Z0].
  destruct (analyze_success _ _ _ N R) as [_ [S [_ [_ [_ [P _]]]]]].
  rewrite P. destruct (Dict.values (tasks d')) as [|i r] eqn:Vs; [|reflexivity].
  apply Z0. apply values_nil_keys in Vs.
  assert (Q : tasks d' = []) by (destruct (tasks d'); [reflexivity | discriminate]).
  symmetry in S. apply (skeleton_nil _ _ S Q).
Qed.

Lemma analyze_forward_mono cs1 cs2 msg1 msg2 d1 d2 :
  analyze (run cs1) = Returns (true, msg1) d1 ->
  analyze (run cs2) = Returns (true, msg2) d2 ->
  content_le (tasks (run cs1)) (tasks (run cs2)) ->
  project_duration d1 <= project_duration d2
  /\ forall T, field est (tasks d1) T <= field est (tasks d2) T
               /\ field eft (tasks d1) T <= field eft (tasks d2) T.
Proof.
  intros R1 R2 C.
  destruct (analyze_schedule _ _ _ R1) as [V1 [S1 [_ [F1 _]]]].
  destruct (analyze_schedule _ _ _ R2) as [V2 [S2 [_ [F2 _]]]].
  pose proof (content_le_skeleton _ _ _ _ S1 S2 C) as [K [D L]].
  pose proof V1 as [N1 _]. pose proof V2 as [N2 _].
  destruct (valid_topological _ V1) as [order [_ [Tp Ko]]].
  assert (M : forall T, In T (Dict.keys (tasks d1)) ->
                field est (tasks d1) T <= field est (tasks d2) T
                /\ field eft (tasks d1) T <= field eft (tasks d2) T).
  { intros T I. apply (forward_mono _ _ _ _ Tp); auto.
    - intros x y J. now apply gedge_graph_of.
    - intros x J. apply F1. now apply Ko.
    - intros x J. apply F2. apply K. now apply Ko.
    - now apply Ko. }
  split.
  - apply (project_duration_mono (tasks d1) (tasks d2)); auto.
    + intros T I. now apply M.
    + eapply analyze_project_duration; eauto.
    + eapply analyze_project_duration; eauto.
  - intros T. destruct (in_dec string_dec T (Dict.keys (tasks d1))) as [I|I];
      [now apply M|].
    assert (G1 : Dict.get T (tasks d1) = None) by now apply get_None.
    assert (G2 : Dict.get T (tasks d2) = None).
    { apply get_None. intros J. apply I. now apply K. }
    unfold field. rewrite G1, G2. lia.
Qed.

(** X16.  Longer durations never shorten the schedule: when two projects
    register the same tasks with the same dependencies, in any order, and no
    duration of the first exceeds that of the second, then after successful
    analyses no earliest start or finish of the first is later than in the
    second, and the first project duration is not the longer. *)
Theorem longer_tasks_never_finish_earlier (cs1 cs2 : list call)
    (msg1 msg2 : string) (d1 d2 : PERTDiagram) :
  analyze (run cs1) = Returns (true, msg1) d1 ->
  analyze (run cs2) = Returns (true, msg2) d2 ->
  related Z.leb (tasks (run cs1)) (tasks (run cs2)) = true ->
  project_duration d1 <= project_duration d2
  /\ forall T, field est (tasks d1) T <= field est (tasks d2) T
               /\ field eft (tasks d1) T <= field eft (tasks d2) T.
Proof.
  intros R1 R2 Rel. apply (analyze_forward_mono _ _ _ _ _ _ R1 R2).
  apply (related_content Z.leb); [intros x y; apply Z.leb_le | | | exact Rel].
  - now destruct (run_well_formed cs1).
  - now destruct (run_well_formed cs2).
Qed.

Lemma longer_tasks_never_finish_earlier_witness :
  let cs1 := [AddTask "A" 3 None; AddTask "B" 4 (Some ["A"]); AddTask "C" 2 (Some ["A"])] in
  let cs2 := [AddTask "C" 6 (Some ["A"]); AddTask "B" 4 (Some ["A"]); AddTask "A" 3 None] in
  let d1 := state_of (analyze (run cs1)) in
  let d2 := state_of (analyze (run cs2)) in
  project_duration d1 <= project_duration d2
  /\ forall T, field est (tasks d1) T <= field est (tasks d2) T
               /\ field eft (tasks d1) T <= field eft (tasks d2) T.
Proof.
  intros cs1 cs2 d1 d2.
  apply (longer_tasks_never_finish_earlier cs1 cs2 EmptyString EmptyString d1 d2);
    vm_compute; reflexivity.
Defined.






(** the breadth-first order of the critical path is not always an order of
    execution: here [X] depends on [Y] and is listed before it *)
Example critical_path_lists_dependent_first :
  let d := state_of (analyze (run [AddTask "A" 1 None; AddTask "P" 1 (Some ["A"]);
                                   AddTask "Y" 1 (Some ["P"]);
                                   AddTask "X" 1 (Some ["A"; "Y"])])) in
  critical_path d = ["A"; "P"; "X"; "Y"] /\ depends_on (tasks d) "X" "Y".
Proof.
  intros d. split; [vm_compute; reflexivity|].
  exists (mk_task 1 ["A"; "Y"] 3 4 3 4 0).
  split; [vm_compute; reflexivity | simpl; auto].
Qed.
